(** * mysh: a line-oriented command shell (src/mysh.c)

    A shallow embedding of the shell's C code.  Character buffers are lists
    of [ascii] and pointers into a buffer are offsets; every access is
    bounds-checked, so that behaviour the C standard leaves undefined shows
    up as a [Fault].  The operating system (open, dup2, chdir, fork, execvp,
    waitpid) is a record of functions the theorems quantify over. *)

From Stdlib Require Import ZArith Ascii String DecimalString.
From stdpp Require Import base tactics option list strings.

Local Open Scope char_scope.
Local Open Scope Z_scope.
Local Open Scope nat_scope.

(** ** Characters and buffers *)

(** A [char] buffer; a pointer into it is a [nat] offset. *)
Abbreviation mem := (list ascii).

(** A string literal, as the bytes in front of its terminating NUL. *)
Abbreviation lit s := (list_ascii_of_string s).

Definition NUL : ascii := "000".

Definition is_nul (c : ascii) : bool := Ascii.eqb c NUL.

(** [isspace] of <ctype.h> in the C locale: space, and \t \n \v \f \r;
    no byte above 127. *)
Definition isspace (c : ascii) : bool :=
  let n := nat_of_ascii c in
  Nat.eqb n 32 || (Nat.leb 9 n && Nat.leb n 13).

(** Membership of a character in the set a string literal spells. *)
Definition member (c : ascii) (set : list ascii) : bool :=
  existsb (Ascii.eqb c) set.

(** ** The state the shell acts on *)

(** The status word [waitpid] fills in, as the W* macros read it. *)
Inductive wstatus :=
| WExited (code : Z)      (* WIFEXITED, WEXITSTATUS *)
| WSignaled (sig : Z)     (* WIFSIGNALED, WTERMSIG *)
| WOther.

Record world := World {
  cwd : list ascii;              (* the process's working directory *)
  out : list (list ascii);       (* texts written to stdout, in order *)
  err : list (list ascii);       (* texts written to stderr, in order *)
  children : list Z              (* pids of the children fork created *)
}.

Definition printf (s : list ascii) (w : world) : world :=
  World (cwd w) (out w ++ [s]) (err w) (children w).

Definition eprintf (s : list ascii) (w : world) : world :=
  World (cwd w) (out w) (err w ++ [s]) (children w).

(** [perror]: the message; the text for [errno] that follows it is left out. *)
Definition perror (s : list ascii) (w : world) : world := eprintf s w.

Definition set_cwd (d : list ascii) (w : world) : world :=
  World d (out w) (err w) (children w).

Definition add_child (pid : Z) (w : world) : world :=
  World (cwd w) (out w) (err w) (children w ++ [pid]).

(** [%d] of printf. *)
Definition fmt_d (z : Z) : list ascii :=
  lit (NilZero.string_of_int (Z.to_int z)).

(** ** Results of running C code *)

(** Behaviour C leaves undefined. *)
Inductive fault :=
| NullDeref       (* a null pointer is dereferenced *)
| OutOfBounds     (* an access outside the object *)
| Uninit          (* an uninitialised object is read *)
| IntOverflow.    (* a value an [int] cannot hold *)

(** The statement that ended the process. *)
Inductive site :=
| AtExitBuiltin       (* exit(0), line 56 *)
| AtForkFailed        (* exit(EXIT_FAILURE), line 74 *)
| AtExecFailed        (* exit(1), line 81 (in the child) *)
| AtOpenFailed        (* exit(1), line 108 *)
| AtDupFailed         (* exit(2), line 114 *)
| AtReadFailed        (* exit(2), line 130 *)
| AtEndOfInput.       (* return 0, line 173 *)

Inductive result (A : Type) :=
| Ret (a : A)                                   (* falls through *)
| Halt (s : site) (code : Z) (w : world)        (* the process ends *)
| Exec (argv : list (list ascii)) (w : world)   (* execvp replaced the image *)
| Fault (f : fault).
Arguments Ret {A} a.
Arguments Halt {A} s code w.
Arguments Exec {A} argv w.
Arguments Fault {A} f.

#[global] Instance result_ret : MRet result := fun A a => Ret a.
#[global] Instance result_bind : MBind result := fun A B f r =>
  match r with
  | Ret a => f a
  | Halt s c w => Halt s c w
  | Exec argv w => Exec argv w
  | Fault e => Fault e
  end.

(** Array and buffer accesses. *)
Definition load {A} (a : list A) (i : nat) : result A :=
  match a !! i with
  | Some x => Ret x
  | None => Fault OutOfBounds
  end.

Definition store {A} (a : list A) (i : nat) (x : A) : result (list A) :=
  if decide (i < length a) then Ret (<[i:=x]> a) else Fault OutOfBounds.

(** ** <string.h> *)

(** Number of characters before the first one at which [stop] holds; the
    scan leaves the buffer when there is none. *)
Fixpoint scan (stop : ascii -> bool) (s : list ascii) : result nat :=
  match s with
  | [] => Fault OutOfBounds
  | c :: s' => if stop c then Ret 0 else n ← scan stop s'; Ret (S n)
  end.

Definition strlen (m : mem) (s : nat) : result nat :=
  scan is_nul (drop s m).

Definition strspn (m : mem) (s : nat) (accept : list ascii) : result nat :=
  scan (fun c => is_nul c || negb (member c accept)) (drop s m).

Definition strcspn (m : mem) (s : nat) (reject : list ascii) : result nat :=
  scan (fun c => is_nul c || member c reject) (drop s m).

(** [strpbrk]: [None] is the null pointer. *)
Definition strpbrk (m : mem) (s : nat) (accept : list ascii) : result (option nat) :=
  n ← strcspn m s accept;
  c ← load m (s + n);
  Ret (if is_nul c then None else Some (s + n)).

(** The string a pointer points to, up to its NUL. *)
Definition cstr (m : mem) (s : nat) : result (list ascii) :=
  n ← strlen m s;
  Ret (take n (drop s m)).

(** [strtok_r (s, delim, &save)] for a non-null [s]: the buffer after the
    call, the value left in [save], and the token ([None]: null). *)
Definition strtok_r (m : mem) (s : nat) (delim : list ascii)
  : result (mem * nat * option nat) :=
  n ← strspn m s delim;
  let s := s + n in
  c ← load m s;
  if is_nul c then Ret (m, s, None)
  else
    k ← strcspn m s delim;
    let e := s + k in
    c ← load m e;
    if is_nul c then Ret (m, e, Some s)
    else m ← store m e NUL; Ret (m, e + 1, Some s).

(** ** preprocess (lines 20-37) *)

Definition INT_MAX : Z := 2147483647.

(** A value stored in an [int]. *)
Definition to_int (n : nat) : result nat :=
  if decide (Z.of_nat n <= INT_MAX)%Z then Ret n else Fault IntOverflow.

Definition is_terminator (c : ascii) : bool :=
  Ascii.eqb c ";" || Ascii.eqb c "&".

(** The while loop; [n] is [pos + 1], so [n = 0] is [pos < 0]. *)
Fixpoint preprocess_loop (str : mem) (n : nat) : result mem :=
  match n with
  | 0 => Ret str
  | S pos =>
      c ← load str pos;
      if negb (isspace c) then
        if is_terminator c then
          store str (pos + 1) NUL
        else
          _ ← to_int (pos + 2);
          str ← store str (pos + 1) ";";
          store str (pos + 2) NUL
      else preprocess_loop str pos
  end.

Definition preprocess (str : mem) : result mem :=
  len ← strlen str 0;
  length ← to_int len;
  preprocess_loop str length.

(** ** exec_command (lines 43-99) *)

Definition MAX_ARGS : nat := 128.

(** A slot of [char* tokens[MAX_ARGS]]. *)
Inductive cell :=
| Garbage               (* never assigned *)
| Null
| Addr (p : nat).

Definition nl : ascii := "010".

(** The string a [char*] value points to. *)
Definition string_at (m : mem) (p : cell) : result (list ascii) :=
  match p with
  | Addr a => cstr m a
  | Null => Fault NullDeref
  | Garbage => Fault Uninit
  end.

(** [strcmp (p, s) == 0]. *)
Definition streq (m : mem) (p : cell) (s : list ascii) : result bool :=
  a ← string_at m p;
  Ret (bool_decide (a = s)).

(** The for loop of lines 47-51, entered with the first [strtok_r] done;
    [n] counts the slots left, [MAX_ARGS - size]. *)
Fixpoint tokenize_loop (n : nat) (m : mem) (line : nat) (token : option nat)
    (tokens : list cell) (size : nat) : result (mem * list cell * nat) :=
  match token, n with
  | Some t, S n' =>
      tokens ← store tokens size (Addr t);
      '(m, line, token) ← strtok_r m line (lit " ");
      tokenize_loop n' m line token tokens (size + 1)
  | _, _ => Ret (m, tokens, size)
  end.

(** Lines 45-51: the buffer, the array and [size] after the loop. *)
Definition tokenize (m : mem) (line : nat) : result (mem * list cell * nat) :=
  '(m, line, token) ← strtok_r m line (lit " ");
  tokenize_loop MAX_ARGS m line token (replicate MAX_ARGS Garbage) 0.

(** The strings [execvp] reads from a null-terminated vector. *)
Fixpoint argv_of (m : mem) (tokens : list cell) : result (list (list ascii)) :=
  match tokens with
  | [] => Fault OutOfBounds
  | Null :: _ => Ret []
  | p :: tokens' => s ← string_at m p; l ← argv_of m tokens'; Ret (s :: l)
  end.

(** The operating system, as the shell calls it. *)
Record OS := {
  sys_open : list ascii -> Z;                       (* open: a descriptor or -1 *)
  sys_dup2 : Z -> Z;                                (* dup2 (fd, 0) *)
  sys_chdir : world -> list ascii -> option (list ascii);
                                                    (* chdir: the new directory *)
  sys_fork : world -> Z;                            (* fork: -1, 0 or a pid *)
  sys_execvp : world -> list (list ascii) -> bool;  (* execvp replaces the image *)
  sys_waitpid : world -> Z -> wstatus;              (* waitpid (pid, &status, 0) *)
  sys_reap : world -> list (Z * wstatus)            (* the positive results of
                                                       waitpid (0, &status, WNOHANG) *)
}.

Definition EXIT_FAILURE : Z := 1.

(** Lines 54-98, once the vector is built. *)
Definition dispatch (os : OS) (m : mem) (tokens : list cell) (size : nat)
    (is_foreground : bool) (w : world) : result (mem * world) :=
  (* handle exit *)
  t0 ← load tokens 0;
  is_exit ← streq m t0 (lit "exit");
  if is_exit : bool then Halt AtExitBuiltin 0 w
  else
  (* handle cd *)
  is_cd ← streq m t0 (lit "cd");
  if is_cd : bool then
    if decide (1 < size) then
      t1 ← load tokens 1;
      dir ← string_at m t1;
      match sys_chdir os w dir with
      | Some d => Ret (m, set_cwd d w)
      | None =>
          Ret (m, printf (lit "shell: cd: " ++ dir
                          ++ lit ": No such file or directory" ++ [nl]) w)
      end
    else Ret (m, w)
  else
  (* create a child process *)
  let child_id := sys_fork os w in
  if decide (child_id = (-1)%Z) then
    Halt AtForkFailed EXIT_FAILURE (perror (lit "fork failed") w)
  else if decide (child_id = 0%Z) then
    (* execute child process *)
    argv ← argv_of m tokens;
    if sys_execvp os w argv then Exec argv w
    else Halt AtExecFailed 1 (perror (lit "execvp failed, invalid command." ++ [nl]) w)
  else
    (* in the parent: only wait if this is a foreground process *)
    let w := add_child child_id w in
    if is_foreground then
      match sys_waitpid os w child_id with
      | WExited c =>
          name ← string_at m t0;
          Ret (m, printf (lit "[" ++ name ++ lit " exited with status "
                          ++ fmt_d c ++ lit "]" ++ [nl]) w)
      | WSignaled sg =>
          name ← string_at m t0;
          Ret (m, printf (lit "[" ++ name ++ lit " died with status "
                          ++ fmt_d sg ++ lit "]" ++ [nl]) w)
      | WOther => Ret (m, printf (lit "Something unexpected happened." ++ [nl]) w)
      end
    else Ret (m, w).

Definition exec_command (os : OS) (m : mem) (line : nat) (is_foreground : bool)
    (w : world) : result (mem * world) :=
  (* parse the line into tokens *)
  '(m, tokens, size) ← tokenize m line;
  tokens ← store tokens size Null;
  dispatch os m tokens size is_foreground w.

(** The argument sequence the tokenizer leaves: the strings the first
    [size] slots point to. *)
Fixpoint strings_at (m : mem) (ps : list cell) : result (list (list ascii)) :=
  match ps with
  | [] => Ret []
  | p :: ps' => s ← string_at m p; l ← strings_at m ps'; Ret (s :: l)
  end.

Definition arguments (m : mem) (line : nat) : result (list (list ascii)) :=
  '(m, tokens, size) ← tokenize m line;
  strings_at m (take size tokens).

(** ** main (lines 101-174) *)

Section Jobs.
(** The for loop of lines 145-150, with the call of line 148 as [exec]. *)
Context {W : Type} (exec : mem -> nat -> bool -> W -> result (mem * W)).

(** The loop recurses on [avail], the bytes of the buffer from [line] on:
    with none left [strpbrk] reads outside the buffer. *)
Fixpoint for_each_job (avail : nat) (m : mem) (line : nat) (w : W)
    : result (mem * W) :=
  match avail with
  | 0 => Fault OutOfBounds
  | S avail' =>
      next ← strpbrk m line (lit ";&");
      match next with
      | None => Ret (m, w)
      | Some next =>
          c ← load m next;
          let is_foreground := Ascii.eqb c ";" in
          m ← store m next NUL;
          '(m, w) ← exec m line is_foreground w;
          for_each_job avail' m (next + 1) w
      end
  end.
End Jobs.

(** The job splitter on its own: each job as the text [exec_command] is
    handed and its flag. *)
Definition record_job (m : mem) (line : nat) (is_foreground : bool)
    (jobs : list (list ascii * bool)) : result (mem * list (list ascii * bool)) :=
  text ← cstr m line;
  Ret (m, jobs ++ [(text, is_foreground)]).

Definition split_jobs (m : mem) : result (list (list ascii * bool)) :=
  '(_, jobs) ← for_each_job record_job (length m) m 0 [];
  Ret jobs.

(** The sweep of lines 153-162. *)
Definition report (w : world) (r : Z * wstatus) : world :=
  match r.2 with
  | WExited c =>
      printf (lit "[background process " ++ fmt_d r.1 ++ lit " exited with status "
              ++ fmt_d c ++ lit "]" ++ [nl]) w
  | WSignaled sg =>
      printf (lit "[background process " ++ fmt_d r.1 ++ lit " exited with status "
              ++ fmt_d sg ++ lit "]" ++ [nl]) w
  | WOther => printf (lit "Something unexpected happened." ++ [nl]) w
  end.

Definition EINVAL : Z := 22.

(** One line read by [getline]: lines 142-162. *)
Definition run_line (os : OS) (line : mem) (w : world) : result world :=
  line ← preprocess line;
  '(_, w) ← for_each_job (exec_command os) (length line) line 0 w;
  Ret (foldl report w (sys_reap os w)).

(** The while loop of lines 122-166.  [input] holds the buffers [getline]
    returns, in order; after them [getline] returns -1 with [errno] set to
    [last_errno]. *)
Fixpoint read_loop (os : OS) (input : list mem) (last_errno : Z) (w : world)
    : result Empty_set :=
  let w := printf (lit "$ ") w in
  match input with
  | [] =>
      if decide (last_errno = EINVAL) then
        Halt AtReadFailed 2 (perror (lit "Unable to read command line") w)
      else
        Halt AtEndOfInput 0 (printf ([nl] ++ lit "Shutting down..." ++ [nl]) w)
  | line :: input' =>
      w ← run_line os line w;
      read_loop os input' last_errno w
  end.

Definition main (os : OS) (argv : list (list ascii)) (input : list mem)
    (last_errno : Z) (w : world) : result Empty_set :=
  if decide (length argv = 2) then
    path ← load argv 1;
    let new_input := sys_open os path in
    if decide (new_input = (-1)%Z) then
      Halt AtOpenFailed 1 (eprintf (lit "Failed to open input file " ++ path ++ [nl]) w)
    else if decide (sys_dup2 os new_input = (-1)%Z) then
      Halt AtDupFailed 2 (eprintf (lit "Failed to set new file as input" ++ [nl]) w)
    else read_loop os input last_errno w
  else read_loop os input last_errno w.

(** ** Splitting a text, as the specification words it *)

(** The pieces of a text between its separators. *)
Fixpoint fields (sep : ascii -> bool) (s : list ascii) : list (list ascii) :=
  match s with
  | [] => [[]]
  | c :: s' =>
      if sep c then [] :: fields sep s'
      else match fields sep s' with
           | f :: fs => (c :: f) :: fs
           | [] => [[c]]
           end
  end.

(** Consecutive separators collapse: no empty piece is a word. *)
Definition words (sep : ascii -> bool) (s : list ascii) : list (list ascii) :=
  filter (fun f => f <> []) (fields sep s).

(** The delimiter [strtok_r] is given, [" "]. *)
Definition is_blank (c : ascii) : bool := Ascii.eqb c " ".

(** ** Predicates the statements use *)

(** Characters, by what the scans make of them. *)
Definition nonnul (c : ascii) : Prop := is_nul c = false.
Definition space (c : ascii) : Prop := isspace c = true.
Definition plain (c : ascii) : Prop := is_terminator c = false.
Definition blank (c : ascii) : Prop := is_blank c = true.

(** A text without a separator. *)
Definition unbroken (sep : ascii -> bool) (w : list ascii) : Prop :=
  Forall (fun c => sep c = false) w.

(** The slot [c] points to the string [w]. *)
Definition points_to (m : mem) (c : cell) (w : list ascii) : Prop :=
  exists p, c = Addr p /\ cstr m p = Ret w.

(** ... and [w] with its NUL lies in front of [line]. *)
Definition token_at (m : mem) (line : nat) (c : cell) (w : list ascii) : Prop :=
  exists p, c = Addr p /\ cstr m p = Ret w /\ p + length w <= line.

(** The text of the diagnostic of line 64. *)
Definition cd_diagnostic (dir : list ascii) : list ascii :=
  lit "shell: cd: " ++ dir ++ lit ": No such file or directory" ++ [nl].

(** [P] holds of the value, when the code falls through. *)
Definition returns {A} (P : A -> Prop) (r : result A) : Prop :=
  match r with
  | Ret a => P a
  | _ => True
  end.

(** The code a process ends with fits the statement that ended it. *)
Definition code_fits (s : site) (code : Z) : Prop :=
  (code = 0%Z <-> s = AtExitBuiltin \/ s = AtEndOfInput) /\
  (s = AtOpenFailed -> code = 1%Z) /\
  (s = AtDupFailed -> code = 2%Z) /\
  (s = AtReadFailed -> code = 2%Z).

(** Every [Halt] carries a code that fits its statement. *)
Definition halts_fit {A} (r : result A) : Prop :=
  match r with
  | Halt s code _ => code_fits s code
  | _ => True
  end.

(** ** Lines and jobs as texts *)

(** A text without the white space at its right end. *)
Fixpoint rtrim (s : list ascii) : list ascii :=
  match s with
  | [] => []
  | c :: s' =>
      match rtrim s' with
      | [] => if isspace c then [] else [c]
      | t => c :: t
      end
  end.

(** The line [preprocess] leaves: a blank line as it is; any other cut
    behind its last character that is not white space, with a [;] added
    unless that character is a terminator. *)
Definition normalize (s : list ascii) : list ascii :=
  match last (rtrim s) with
  | None => s
  | Some c => if is_terminator c then rtrim s else rtrim s ++ [";"]
  end.

(** The jobs of a line: the texts in front of its terminators, each with
    the flag of its terminator; [text] is the part of the job read so far. *)
Fixpoint jobs_of (text : list ascii) (s : list ascii) : list (list ascii * bool) :=
  match s with
  | [] => []
  | c :: s' =>
      if is_terminator c then (text, Ascii.eqb c ";") :: jobs_of [] s'
      else jobs_of (text ++ [c]) s'
  end.

(** A job written out again: its text and its terminator. *)
Definition job_source (j : list ascii * bool) : list ascii :=
  j.1 ++ [if j.2 then ";" else "&"].

(** [m'] is [m] with some of its blanks overwritten by NUL. *)
Definition blanked (m m' : mem) : Prop :=
  Forall2 (fun c c' => c' = c \/ (c = " " /\ c' = NUL)) m m'.

(** What a call does to the world, the buffer left aside. *)
Definition world_of {W} (r : result (mem * W)) : result W :=
  '(_, w) ← r; Ret w.

(** The jobs done one after the other, [f] doing one from its text. *)
Fixpoint each_job {W} (f : list ascii -> bool -> W -> result W)
    (jobs : list (list ascii * bool)) (w : W) : result W :=
  match jobs with
  | [] => Ret w
  | (text, is_foreground) :: jobs' => w ← f text is_foreground w; each_job f jobs' w
  end.

(** The jobs run one after the other, each from a buffer of its own. *)
Definition run_jobs (os : OS) : list (list ascii * bool) -> world -> result world :=
  each_job (fun text is_foreground w =>
              world_of (exec_command os (text ++ [NUL]) 0 is_foreground w)).

(** Lines 54-98 on the words of a job, in place of the vector that points
    to them. *)
Definition launch (os : OS) (args : list (list ascii)) (is_foreground : bool)
    (w : world) : result world :=
  match args with
  | [] => Fault NullDeref
  | name :: rest =>
      if bool_decide (name = lit "exit") then Halt AtExitBuiltin 0 w
      else if bool_decide (name = lit "cd") then
        match rest with
        | [] => Ret w
        | dir :: _ =>
            match sys_chdir os w dir with
            | Some d => Ret (set_cwd d w)
            | None => Ret (printf (cd_diagnostic dir) w)
            end
        end
      else
        let child_id := sys_fork os w in
        if decide (child_id = (-1)%Z) then
          Halt AtForkFailed EXIT_FAILURE (perror (lit "fork failed") w)
        else if decide (child_id = 0%Z) then
          if sys_execvp os w args then Exec args w
          else Halt AtExecFailed 1
                 (perror (lit "execvp failed, invalid command." ++ [nl]) w)
        else
          let w := add_child child_id w in
          if is_foreground then
            match sys_waitpid os w child_id with
            | WExited c =>
                Ret (printf (lit "[" ++ name ++ lit " exited with status "
                             ++ fmt_d c ++ lit "]" ++ [nl]) w)
            | WSignaled sg =>
                Ret (printf (lit "[" ++ name ++ lit " died with status "
                             ++ fmt_d sg ++ lit "]" ++ [nl]) w)
            | WOther => Ret (printf (lit "Something unexpected happened." ++ [nl]) w)
            end
          else Ret w
  end.

(** The line the sweep writes for a reaped child (lines 155-160): the
    words are the same for an exit status and for a signal. *)
Definition report_text (r : Z * wstatus) : list ascii :=
  match r.2 with
  | WExited n | WSignaled n =>
      lit "[background process " ++ fmt_d r.1 ++ lit " exited with status "
      ++ fmt_d n ++ lit "]" ++ [nl]
  | WOther => lit "Something unexpected happened." ++ [nl]
  end.

(** The first [size] slots of the vector have been assigned tokens. *)
Definition assigned (tokens : list cell) (size : nat) : Prop :=
  forall i, i < size -> exists p, tokens !! i = Some (Addr p).

(** A run ends, if it ends with a status, with one that [PH] holds of, and
    if it ends in a fault, in one that [PF] holds of. *)
Definition ends_within (PH : Z -> Prop) (PF : fault -> Prop) {A} (r : result A) : Prop :=
  match r with
  | Halt _ code _ => PH code
  | Fault f => PF f
  | _ => True
  end.

(** ** Operating systems to run examples on *)

(** Every call succeeds; only [/tmp] can be entered; a child exits with 0. *)
Definition os_fine : OS := {|
  sys_open := fun _ => 3%Z;
  sys_dup2 := fun _ => 0%Z;
  sys_chdir := fun _ d => if bool_decide (d = lit "/tmp") then Some d else None;
  sys_fork := fun w => (100 + Z.of_nat (length (children w)))%Z;
  sys_execvp := fun _ _ => true;
  sys_waitpid := fun _ _ => WExited 0;
  sys_reap := fun _ => []
|}.



(** As [os_fine], seen from the child: [fork] returns 0. *)
Definition os_child : OS := {|
  sys_open := sys_open os_fine;
  sys_dup2 := sys_dup2 os_fine;
  sys_chdir := sys_chdir os_fine;
  sys_fork := fun _ => 0%Z;
  sys_execvp := sys_execvp os_fine;
  sys_waitpid := sys_waitpid os_fine;
  sys_reap := sys_reap os_fine
|}.

(** As [os_fine], but [fork] fails. *)
Definition os_no_fork : OS := {|
  sys_open := sys_open os_fine;
  sys_dup2 := sys_dup2 os_fine;
  sys_chdir := sys_chdir os_fine;
  sys_fork := fun _ => (-1)%Z;
  sys_execvp := sys_execvp os_fine;
  sys_waitpid := sys_waitpid os_fine;
  sys_reap := sys_reap os_fine
|}.

(** The shell at start: in [/], nothing written, no children. *)
Definition w_start : world := World (lit "/") [] [] [].

(** * Properties *)

Create Rewrite HintDb len.
#[local] Hint Rewrite @length_app @length_insert @length_cons : len.

(** ** The result monad *)

Lemma bind_Ret {A B} (r : result A) (f : A -> result B) b :
  r ≫= f = Ret b -> exists a, r = Ret a /\ f a = Ret b.
Proof. destruct r; simpl; try discriminate. eauto. Qed.

Lemma ret_bind {A B} (a : A) (f : A -> result B) : Ret a ≫= f = f a.
Proof. reflexivity. Qed.

Lemma load_Ret {A} (a : list A) i x : load a i = Ret x <-> a !! i = Some x.
Proof. unfold load. destruct (a !! i); split; congruence. Qed.

Lemma load_lookup {A} (a : list A) i x : a !! i = Some x -> load a i = Ret x.
Proof. apply load_Ret. Qed.

Lemma store_Ret {A} (a : list A) i x : i < length a -> store a i x = Ret (<[i:=x]> a).
Proof. intros H. unfold store. by rewrite decide_True. Qed.

Lemma store_inv {A} (a a' : list A) i x :
  store a i x = Ret a' -> i < length a /\ a' = <[i:=x]> a.
Proof. unfold store. case_decide; intros [=]. auto. Qed.

(** ** Scanning a buffer *)

Lemma scan_Ret stop s n :
  scan stop s = Ret n <->
  (exists c, s !! n = Some c /\ stop c = true) /\
  (forall i c, i < n -> s !! i = Some c -> stop c = false).
Proof.
  revert n. induction s as [|a s IH]; intros n; simpl.
  - split; [discriminate | intros [[c [H _]] _]; discriminate].
  - destruct (stop a) eqn:Ha.
    + split.
      * intros [= <-]. split; [eauto | intros; lia].
      * intros [[c [Hc Hs]] Hlt]. destruct n as [|n]; [done|].
        specialize (Hlt 0 a). rewrite Hlt in Ha; [done | lia | done].
    + split.
      * intros H. apply bind_Ret in H as (k & Hk & [= <-]).
        apply IH in Hk as [Hc Hlt]. split; [done|].
        intros [|i] c Hi; simpl; [congruence|]. apply Hlt. lia.
      * intros [[c [Hc Hs]] Hlt]. destruct n as [|n].
        { simpl in Hc. congruence. }
        assert (scan stop s = Ret n) as ->; [|done].
        apply IH. split; [eauto|]. intros i c' Hi. apply (Hlt (S i)). lia.
Qed.

Lemma scan_app stop l c r :
  Forall (fun x => stop x = false) l -> stop c = true ->
  scan stop (l ++ c :: r) = Ret (length l).
Proof.
  intros Hl Hc. induction Hl as [|x l Hx _ IH]; simpl.
  - by rewrite Hc.
  - by rewrite Hx, IH.
Qed.

Lemma scan_split stop s n :
  scan stop s = Ret n ->
  exists c r, s = take n s ++ c :: r /\ stop c = true /\
              Forall (fun x => stop x = false) (take n s) /\ length (take n s) = n.
Proof.
  intros [[c [Hc Hs]] Hlt]%scan_Ret.
  exists c, (drop (S n) s). split_and!; [|done| |].
  - by rewrite <-(drop_S _ _ _ Hc), take_drop.
  - apply Forall_lookup. intros i x Hx. apply lookup_take_Some in Hx as [Hx Hi]. eauto.
  - apply length_take_le. apply lookup_lt_Some in Hc. lia.
Qed.

(** A scan either finds its character or leaves the buffer. *)
Lemma scan_cases stop s :
  (exists n, scan stop s = Ret n) \/ scan stop s = Fault OutOfBounds.
Proof.
  induction s as [|a s IH]; simpl; [by right|].
  destruct (stop a); [by left; eexists|].
  destruct IH as [[n ->] | ->]; simpl; [left; eauto | by right].
Qed.

(** ** Strings held in a buffer *)

Lemma is_nul_true c : is_nul c = true <-> c = NUL.
Proof. apply Ascii.eqb_eq. Qed.

Lemma strlen_app pre s rest :
  Forall nonnul s -> strlen (pre ++ s ++ NUL :: rest) (length pre) = Ret (length s).
Proof.
  intros Hs. unfold strlen. rewrite drop_app_length. by apply scan_app.
Qed.

Lemma cstr_app pre s rest :
  Forall nonnul s -> cstr (pre ++ s ++ NUL :: rest) (length pre) = Ret s.
Proof.
  intros Hs. unfold cstr. rewrite strlen_app by done. simpl.
  by rewrite drop_app_length, take_app_length.
Qed.

Lemma cstr_Ret m p s :
  cstr m p = Ret s ->
  exists rest, m = take p m ++ s ++ NUL :: rest /\ length (take p m) = p /\ Forall nonnul s.
Proof.
  unfold cstr, strlen. intros (n & Hn & [= <-])%bind_Ret.
  destruct (scan_split _ _ _ Hn) as (c & r & Hm & Hc%is_nul_true & Hs & _).
  subst c. exists r. split_and!; [|  |done].
  - rewrite <-Hm. by rewrite take_drop.
  - apply length_take_le. destruct (decide (p <= length m)) as [|Hp]; [done|].
    rewrite drop_ge in Hn by lia. done.
Qed.

Lemma cstr_Ret0 m s :
  cstr m 0 = Ret s -> exists rest, m = s ++ NUL :: rest /\ Forall nonnul s.
Proof. intros (rest & Hm & _ & Hs)%cstr_Ret. rewrite take_0 in Hm. eauto. Qed.

(** ** preprocess *)

Lemma terminator_not_space c : is_terminator c = true -> isspace c = false.
Proof.
  unfold is_terminator. intros [->%Ascii.eqb_eq | ->%Ascii.eqb_eq]%orb_true_iff; reflexivity.
Qed.

Lemma terminator_nonnul c : is_terminator c = true -> nonnul c.
Proof.
  unfold is_terminator. intros [->%Ascii.eqb_eq | ->%Ascii.eqb_eq]%orb_true_iff; reflexivity.
Qed.

Lemma space_nonnul c : space c -> nonnul c.
Proof.
  unfold space, nonnul. destruct (is_nul c) eqn:H; [|done].
  apply is_nul_true in H as ->. discriminate.
Qed.

(** A string is blank, or has a last character that is not white space. *)
Lemma last_nonspace (s : list ascii) :
  Forall space s \/
  exists body c ws, s = body ++ c :: ws /\ isspace c = false /\ Forall space ws.
Proof.
  induction s as [|x s IH] using rev_ind; [by left|].
  destruct (isspace x) eqn:Hx.
  - destruct IH as [IH | (body & c & ws & -> & Hc & Hws)].
    + left. apply Forall_app. split; [done | by constructor].
    + right. exists body, c, (ws ++ [x]). rewrite <-app_assoc. split_and!; [done..|].
      apply Forall_app. split; [done | by constructor].
  - right. exists s, x, []. by split_and!.
Qed.

(** The loop steps over the white space at the right end. *)
Lemma preprocess_loop_skip pre ws tail :
  Forall space ws ->
  preprocess_loop (pre ++ ws ++ tail) (length pre + length ws)
  = preprocess_loop (pre ++ ws ++ tail) (length pre).
Proof.
  revert tail. induction ws as [|x ws IH] using rev_ind; intros tail Hws.
  - simpl. by rewrite Nat.add_0_r.
  - apply Forall_app in Hws as [Hws Hx]. rewrite Forall_singleton in Hx.
    unfold space in Hx.
    rewrite length_app. simpl. rewrite <-(app_assoc ws). simpl.
    replace (length pre + (length ws + 1)) with (S (length pre + length ws)) by lia.
    simpl. rewrite (load_lookup _ _ x).
    + simpl. rewrite Hx. simpl. by apply IH.
    + rewrite lookup_app_r by lia. rewrite lookup_app_r by lia.
      by replace (length pre + length ws - length pre - length ws) with 0 by lia.
Qed.

(** What the loop does at the last character that is not white space. *)
Lemma preprocess_at body c ws rest :
  Forall nonnul body -> isspace c = false -> nonnul c -> Forall space ws ->
  (Z.of_nat (length (body ++ c :: ws)) <= INT_MAX)%Z ->
  let str := body ++ c :: ws ++ NUL :: rest in
  preprocess str =
    if is_terminator c then store str (length body + 1) NUL
    else _ ← to_int (length body + 2);
         str ← store str (length body + 1) ";";
         store str (length body + 2) NUL.
Proof.
  intros Hb Hc Hc' Hws Hlen str. unfold preprocess.
  assert (Forall nonnul (body ++ c :: ws)) as Hs.
  { apply Forall_app. split; [done|]. constructor; [done|].
    eapply Forall_impl; [done | apply space_nonnul]. }
  pose proof (strlen_app [] _ rest Hs) as Hn. simpl in Hn.
  rewrite <-app_assoc in Hn. simpl in Hn. fold str in Hn. rewrite Hn. simpl.
  unfold to_int at 1. rewrite decide_True by done. simpl.
  rewrite length_app. simpl.
  pose proof (preprocess_loop_skip (body ++ [c]) ws (NUL :: rest) Hws) as Hskip.
  rewrite <-app_assoc in Hskip. simpl in Hskip. fold str in Hskip.
  rewrite length_app in Hskip. simpl in Hskip.
  replace (length body + S (length ws)) with (length body + 1 + length ws) by lia.
  rewrite Hskip. replace (length body + 1) with (S (length body)) at 1 by lia.
  simpl. rewrite (load_lookup _ _ c).
  - simpl. by rewrite Hc.
  - unfold str. rewrite lookup_app_r by lia. by rewrite Nat.sub_diag.
Qed.

Lemma to_int_Ret n : (Z.of_nat n <= INT_MAX)%Z -> to_int n = Ret n.
Proof. intros H. unfold to_int. by rewrite decide_True. Qed.

(** The buffer after a terminator is kept: cut behind it. *)
Lemma preprocess_terminated body t ws rest :
  Forall nonnul body -> is_terminator t = true -> Forall space ws ->
  (Z.of_nat (length (body ++ t :: ws)) <= INT_MAX)%Z ->
  exists tail, length tail = length (ws ++ rest) /\
    preprocess (body ++ t :: ws ++ NUL :: rest) = Ret (body ++ t :: NUL :: tail).
Proof.
  intros Hb Ht Hws Hlen.
  rewrite preprocess_at; [|done|by apply terminator_not_space|by apply terminator_nonnul|done..].
  rewrite Ht, store_Ret by (rewrite !length_app; simpl; rewrite length_app; simpl; lia).
  rewrite insert_app_r. simpl.
  destruct ws as [|x ws]; simpl; eexists; (split; [|done]); [done|].
  rewrite !length_app. simpl. lia.
Qed.

(** The buffer after a terminator is added. *)
Lemma preprocess_unterminated body c ws rest :
  Forall nonnul body -> isspace c = false -> is_terminator c = false -> nonnul c ->
  Forall space ws ->
  (Z.of_nat (length body + 2) <= INT_MAX)%Z ->
  (Z.of_nat (length (body ++ c :: ws)) <= INT_MAX)%Z ->
  2 <= length (ws ++ NUL :: rest) ->
  exists tail, length tail + 2 = length (ws ++ NUL :: rest) /\
    preprocess (body ++ c :: ws ++ NUL :: rest) = Ret (body ++ c :: ";" :: NUL :: tail).
Proof.
  intros Hb Hc Ht Hc' Hws Hi Hlen Hcap.
  rewrite preprocess_at by done. rewrite Ht, to_int_Ret by done. simpl.
  destruct (ws ++ NUL :: rest) as [|x [|y tail]] eqn:E; simpl in Hcap; try lia.
  exists tail. split; [simpl; lia|].
  rewrite store_Ret by (rewrite length_app; simpl; lia).
  simpl. rewrite insert_app_r. simpl.
  rewrite store_Ret by (rewrite length_app; simpl; lia).
  by rewrite insert_app_r.
Qed.

(** C3: a line that ends in white space and whose last other character is
    not a terminator is normalized by dropping that white space and adding
    one [;] -- for a line whose length an [int] holds. *)
Theorem preprocess_appends_terminator (m : mem) (body : list ascii) (c : ascii)
    (ws : list ascii) :
  cstr m 0 = Ret (body ++ c :: ws) ->
  isspace c = false -> is_terminator c = false ->
  ws <> [] -> Forall space ws ->
  (Z.of_nat (length (body ++ c :: ws)) <= INT_MAX)%Z ->
  exists m', preprocess m = Ret m' /\ cstr m' 0 = Ret (body ++ [c; ";"]).
Proof.
  intros (rest & -> & Hs)%cstr_Ret0 Hc Ht Hne Hws Hlen.
  apply Forall_app in Hs as [Hb Hs]. apply Forall_cons in Hs as [Hc' _].
  rewrite <-app_assoc. simpl.
  destruct (preprocess_unterminated body c ws rest) as (tail & _ & ->); try done.
  - rewrite length_app in Hlen. simpl in Hlen. destruct ws; [done|]. simpl in Hlen. lia.
  - destruct ws; [done|]. rewrite length_app. simpl. lia.
  - eexists. split; [done|].
    pose proof (cstr_app [] (body ++ [c; ";"]) tail) as H. simpl in H.
    rewrite <-app_assoc in H. simpl in H. apply H.
    apply Forall_app. split; [done|]. by repeat constructor.
Qed.

Lemma preprocess_appends_terminator_witness :
  exists m', preprocess (lit "ls  " ++ [NUL]) = Ret m' /\ cstr m' 0 = Ret (lit "ls;").
Proof.
  apply (preprocess_appends_terminator (lit "ls  " ++ [NUL]) (lit "l") "s" (lit "  "));
    try reflexivity; [discriminate | by repeat constructor | by vm_compute].
Defined.

(** C4, as the code has it: when the last character that is not white
    space is a terminator, the line is cut right behind it and no second
    terminator is added; white space in front of the terminator stays. *)
Theorem preprocess_keeps_terminator (m : mem) (body : list ascii) (t : ascii)
    (ws : list ascii) :
  cstr m 0 = Ret (body ++ t :: ws) ->
  is_terminator t = true -> Forall space ws ->
  (Z.of_nat (length (body ++ t :: ws)) <= INT_MAX)%Z ->
  exists m', preprocess m = Ret m' /\ cstr m' 0 = Ret (body ++ [t]).
Proof.
  intros (rest & -> & Hs)%cstr_Ret0 Ht Hws Hlen.
  apply Forall_app in Hs as [Hb _].
  rewrite <-app_assoc. simpl.
  destruct (preprocess_terminated body t ws rest) as (tail & _ & ->); try done.
  eexists. split; [done|].
  pose proof (cstr_app [] (body ++ [t]) tail) as H. simpl in H.
  rewrite <-app_assoc in H. simpl in H. apply H.
  apply Forall_app. split; [done|]. constructor; [by apply terminator_nonnul | done].
Qed.

Lemma preprocess_keeps_terminator_witness :
  exists m', preprocess (lit "ls & " ++ [NUL]) = Ret m' /\ cstr m' 0 = Ret (lit "ls &").
Proof.
  apply (preprocess_keeps_terminator (lit "ls & " ++ [NUL]) (lit "ls ") "&" (lit " "));
    try reflexivity; [by repeat constructor | by vm_compute].
Defined.

(** C4 as stated fails: the line [ls &] does not normalize to [ls&]. *)
Lemma preprocess_ls_amp_keeps_space :
  ~ exists m', preprocess (lit "ls &" ++ [NUL]) = Ret m' /\ cstr m' 0 = Ret (lit "ls&").
Proof. intros (m' & [= <-] & H). vm_compute in H. discriminate. Qed.

(** C9: normalizing a normalized line changes nothing, and a line with
    room for the terminator is normalized. *)
Theorem preprocess_idempotent (m : mem) :
  (forall m', preprocess m = Ret m' -> preprocess m' = Ret m') /\
  (forall s, cstr m 0 = Ret s -> (Z.of_nat (length s) < INT_MAX)%Z ->
             length s + 2 <= length m -> exists m', preprocess m = Ret m').
Proof.
  split.
  - intros m' H. pose proof H as H0. unfold preprocess in H0.
    apply bind_Ret in H0 as (n & Hn & H0). apply bind_Ret in H0 as (n' & Hi & _).
    unfold to_int in Hi. case_decide as Hle; [|done]. injection Hi as <-.
    destruct (scan_split _ _ _ Hn) as (z & rest & Hm & ->%is_nul_true & Hs & Hl).
    rewrite drop_0 in Hm, Hs, Hl. set (s := take n m) in *. clearbody s. subst n.
    destruct (last_nonspace s) as [Hbl | (body & c & ws & -> & Hc & Hws)].
    + assert (preprocess m = Ret m) as Hp; [|congruence].
      unfold preprocess. rewrite Hn. simpl. rewrite to_int_Ret by done. simpl.
      pose proof (preprocess_loop_skip [] s (NUL :: rest) Hbl) as E. simpl in E.
      rewrite <-Hm in E. by rewrite E.
    + clear Hn. subst m. rewrite <-app_assoc in H. simpl in H.
      apply Forall_app in Hs as [Hb Hs]. apply Forall_cons in Hs as [Hc' _].
      destruct (is_terminator c) eqn:Ht.
      * destruct (preprocess_terminated body c ws rest) as (tail & _ & E); try done.
        rewrite E in H. injection H as <-.
        pose proof (preprocess_at body c [] tail) as E'. simpl in E'.
        rewrite E'; [|done|done|done|done|rewrite length_app in Hle |- *; simpl in *; lia].
        rewrite Ht, store_Ret by (rewrite !length_app; simpl; lia).
        by rewrite insert_app_r.
      * rewrite preprocess_at in H by done. rewrite Ht in H.
        apply bind_Ret in H as (k & Hk & H).
        unfold to_int in Hk. case_decide as Hk'; [|done]. clear Hk.
        apply bind_Ret in H as (m1 & [H1 ->]%store_inv & [H2 ->]%store_inv).
        rewrite length_insert in H2.
        rewrite insert_app_r. simpl.
        destruct (ws ++ NUL :: rest) as [|x [|y tail]] eqn:E;
          rewrite length_app in H2; simpl in H2; try lia.
        simpl. rewrite insert_app_r. simpl.
        pose proof (preprocess_at (body ++ [c]) ";" [] tail) as E'.
        rewrite <-!app_assoc in E'. simpl in E'. rewrite E'; clear E'.
        -- rewrite store_Ret by (rewrite !length_app; simpl; lia).
           rewrite length_app. simpl.
           replace (length body + 1 + 1) with (length body + 2) by lia.
           by rewrite insert_app_r.
        -- apply Forall_app. split; [done | by constructor].
        -- done.
        -- done.
        -- done.
        -- rewrite length_app. simpl. lia.
  - intros s (rest & -> & Hs)%cstr_Ret0 Hlen Hcap.
    destruct (last_nonspace s) as [Hbl | (body & c & ws & -> & Hc & Hws)].
    + exists (s ++ NUL :: rest). unfold preprocess.
      pose proof (strlen_app [] s rest Hs) as Hn. simpl in Hn. rewrite Hn. simpl.
      rewrite to_int_Ret by lia. simpl.
      pose proof (preprocess_loop_skip [] s (NUL :: rest) Hbl) as E. simpl in E.
      by rewrite E.
    + rewrite <-app_assoc. simpl.
      apply Forall_app in Hs as [Hb Hs]. apply Forall_cons in Hs as [Hc' _].
      autorewrite with len in Hlen, Hcap. simpl in Hlen, Hcap.
      destruct (is_terminator c) eqn:Ht.
      * destruct (preprocess_terminated body c ws rest) as (tail & _ & E); try done.
        { autorewrite with len. simpl. lia. }
        eauto.
      * destruct (preprocess_unterminated body c ws rest) as (tail & _ & E); try done.
        { lia. }
        { autorewrite with len. simpl. lia. }
        { autorewrite with len. simpl. lia. }
        eauto.
Qed.

Lemma preprocess_idempotent_witness :
  preprocess (lit "ls" ++ [NUL; NUL]) = Ret (lit "ls;" ++ [NUL]) /\
  preprocess (lit "ls;" ++ [NUL]) = Ret (lit "ls;" ++ [NUL]).
Proof.
  destruct (preprocess_idempotent (lit "ls" ++ [NUL; NUL])) as [H _].
  split; [reflexivity|]. apply H. reflexivity.
Defined.

(** ** The job splitter *)

Lemma scan_ext f g s : (forall c, f c = g c) -> scan f s = scan g s.
Proof. intros H. induction s as [|a s IH]; simpl; [done|]. by rewrite H, IH. Qed.

Lemma strcspn_terminators m line :
  strcspn m line (lit ";&") = scan (fun c => is_nul c || is_terminator c) (drop line m).
Proof.
  apply scan_ext. intros c. unfold member, is_terminator. simpl. by rewrite orb_false_r.
Qed.

Lemma plain_nonnul_stop text :
  Forall nonnul text -> Forall plain text ->
  Forall (fun c => is_nul c || is_terminator c = false) text.
Proof.
  intros Hs Ht. apply Forall_forall. intros x Hx.
  pose proof (proj1 (Forall_forall _ _) Hs x Hx) as ->.
  by pose proof (proj1 (Forall_forall _ _) Ht x Hx) as ->.
Qed.

(** [strpbrk] stops at the first terminator of the string it is given. *)
Lemma strpbrk_terminator m line text t rest :
  cstr m line = Ret (text ++ t :: rest) -> Forall plain text -> is_terminator t = true ->
  strpbrk m line (lit ";&") = Ret (Some (line + length text)) /\
  m !! (line + length text) = Some t /\
  cstr (<[line + length text := NUL]> m) line = Ret text.
Proof.
  intros (r & Hm & Hl & Hs)%cstr_Ret Htext Ht.
  apply Forall_app in Hs as [Hs1 Hs2]. apply Forall_cons in Hs2 as [Hnt Hs2].
  set (pre := take line m) in *. clearbody pre. subst line m.
  rewrite <-!app_assoc. simpl.
  assert ((pre ++ text ++ t :: rest ++ NUL :: r) !! (length pre + length text) = Some t) as Hlk.
  { rewrite lookup_app_r by lia. rewrite lookup_app_r by lia.
    by replace (length pre + length text - length pre - length text) with 0 by lia. }
  split_and!; [|done|].
  - unfold strpbrk. rewrite strcspn_terminators, drop_app_length.
    rewrite scan_app; [|by apply plain_nonnul_stop|by rewrite Ht, orb_true_r].
    simpl. rewrite (load_lookup _ _ t) by done. simpl. by rewrite Hnt.
  - rewrite insert_app_r, insert_app_r_alt by lia. rewrite Nat.sub_diag. simpl.
    by apply cstr_app.
Qed.

(** Without a terminator in the string [strpbrk] returns the null pointer. *)
Lemma strpbrk_none m line text :
  cstr m line = Ret text -> Forall plain text -> strpbrk m line (lit ";&") = Ret None.
Proof.
  intros (r & Hm & Hl & Hs)%cstr_Ret Htext.
  set (pre := take line m) in *. clearbody pre. subst line m.
  unfold strpbrk. rewrite strcspn_terminators, drop_app_length.
  rewrite scan_app; [|by apply plain_nonnul_stop|done].
  simpl. rewrite (load_lookup _ _ NUL); [done|].
  rewrite lookup_app_r by lia. rewrite lookup_app_r by lia.
  by replace (length pre + length text - length pre - length text) with 0 by lia.
Qed.

Lemma for_each_job_S {W} (exec : mem -> nat -> bool -> W -> result (mem * W))
    avail m line w :
  for_each_job exec (S avail) m line w =
    next ← strpbrk m line (lit ";&");
    match next with
    | None => Ret (m, w)
    | Some next =>
        c ← load m next;
        m ← store m next NUL;
        '(m, w) ← exec m line (Ascii.eqb c ";") w;
        for_each_job exec avail m (next + 1) w
    end.
Proof. reflexivity. Qed.

(** C2: the line [echo a;echo b&] splits into the foreground job [echo a]
    and the background job [echo b]; in general the first terminator of
    the text that is left ends a job, foreground for [;] and background for
    [&], a NUL replaces it and the scan goes on right behind it; with no
    terminator left the loop ends. *)
Theorem job_splitter :
  split_jobs (lit "echo a;echo b&" ++ [NUL])
    = Ret [(lit "echo a", true); (lit "echo b", false)] /\
  (forall W (exec : mem -> nat -> bool -> W -> result (mem * W)) avail m line w text t rest,
     cstr m line = Ret (text ++ t :: rest) -> Forall plain text -> is_terminator t = true ->
     let next := line + length text in
     let m1 := <[next := NUL]> m in
     cstr m1 line = Ret text /\
     (Ascii.eqb t ";" = true <-> t = ";") /\ (Ascii.eqb t ";" = false <-> t = "&") /\
     for_each_job exec (S avail) m line w
       = '(m2, w2) ← exec m1 line (Ascii.eqb t ";") w;
         for_each_job exec avail m2 (next + 1) w2) /\
  (forall W (exec : mem -> nat -> bool -> W -> result (mem * W)) avail m line w text,
     cstr m line = Ret text -> Forall plain text ->
     for_each_job exec (S avail) m line w = Ret (m, w)).
Proof.
  split_and!.
  - reflexivity.
  - intros W exec avail m line w text t rest Hm Htext Ht next m1.
    destruct (strpbrk_terminator _ _ _ _ _ Hm Htext Ht) as (Hp & Hlk & Hc).
    split_and!; [done|apply Ascii.eqb_eq| |].
    + unfold is_terminator in Ht. apply orb_true_iff in Ht as [->%Ascii.eqb_eq | ->%Ascii.eqb_eq];
        by split.
    + rewrite for_each_job_S, Hp. simpl. rewrite (load_lookup _ _ t) by done. simpl.
      rewrite store_Ret by (by eapply lookup_lt_Some). done.
  - intros W exec avail m line w text Hm Htext.
    by rewrite for_each_job_S, (strpbrk_none _ _ _ Hm Htext).
Qed.

(** The same line run by the shell: [echo a] is waited for and reported,
    [echo b] is left running, and both are children of the shell. *)
Example two_jobs_session :
  main os_fine [lit "mysh"] [lit "echo a;echo b&" ++ [nl; NUL]] 0 w_start
  = Halt AtEndOfInput 0
      {| cwd := lit "/";
         out := [lit "$ "; lit "[echo exited with status 0]" ++ [nl]; lit "$ ";
                 [nl] ++ lit "Shutting down..." ++ [nl]];
         err := [];
         children := [100%Z; 101%Z] |}.
Proof. reflexivity. Qed.

Lemma job_splitter_witness :
  for_each_job record_job 2 (lit "ls&pwd" ++ [NUL]) 0 []
  = '(m2, w2) ← record_job (lit "ls" ++ NUL :: lit "pwd" ++ [NUL]) 0 false [];
    for_each_job record_job 1 m2 3 w2.
Proof.
  destruct job_splitter as (_ & H & _).
  apply (H _ record_job 1 (lit "ls&pwd" ++ [NUL]) 0 [] (lit "ls") "&" (lit "pwd"));
    [reflexivity | by repeat constructor | reflexivity].
Defined.

(** ** Words of a text *)

Section Words.
Context (sep : ascii -> bool).

Lemma fields_word w : unbroken sep w -> fields sep w = [w].
Proof.
  induction 1 as [|c w Hc _ IH]; simpl; [done|]. by rewrite Hc, IH.
Qed.

Lemma fields_app w c s :
  unbroken sep w -> sep c = true -> fields sep (w ++ c :: s) = w :: fields sep s.
Proof.
  intros Hw Hc. induction Hw as [|x w Hx _ IH]; simpl.
  - by rewrite Hc.
  - by rewrite Hx, IH.
Qed.

Lemma fields_unbroken s : Forall (unbroken sep) (fields sep s).
Proof.
  induction s as [|c s IH]; simpl.
  - by repeat constructor.
  - destruct (sep c) eqn:Hc; [constructor; [constructor | done]|].
    destruct IH as [|f fs Hf Hfs]; [by repeat constructor|].
    constructor; [by constructor | done].
Qed.

Lemma words_nil : words sep [] = [].
Proof. unfold words. simpl. by rewrite filter_cons_False, filter_nil by (by intros []). Qed.

Lemma words_word w : unbroken sep w -> w <> [] -> words sep w = [w].
Proof.
  intros Hw Hne. unfold words. rewrite fields_word by done.
  by rewrite filter_cons_True by done.
Qed.

Lemma words_app w c s :
  unbroken sep w -> w <> [] -> sep c = true -> words sep (w ++ c :: s) = w :: words sep s.
Proof.
  intros Hw Hne Hc. unfold words. rewrite fields_app by done.
  by rewrite filter_cons_True by done.
Qed.

Lemma words_seps l s : Forall (fun c => sep c = true) l -> words sep (l ++ s) = words sep s.
Proof.
  induction 1 as [|c l Hc _ IH]; [done|].
  rewrite <-IH. unfold words. simpl. rewrite Hc.
  by rewrite filter_cons_False by (by intros []).
Qed.

(** No word is empty and none holds a separator. *)
Lemma words_ok s : Forall (fun w => w <> [] /\ unbroken sep w) (words sep s).
Proof.
  apply Forall_forall. intros w [Hne Hw]%list_elem_of_filter. split; [done|].
  by apply (proj1 (Forall_forall _ _) (fields_unbroken s)).
Qed.

(** A text is a run of characters satisfying [p], then nothing or a
    character that does not. *)
Lemma run_split (p : ascii -> bool) (s : list ascii) :
  exists a b, s = a ++ b /\ Forall (fun c => p c = true) a /\
              match b with [] => True | c :: _ => p c = false end.
Proof.
  induction s as [|c s (a & b & -> & Ha & Hb)].
  - by exists [], [].
  - destruct (p c) eqn:Hc.
    + exists (c :: a), b. split_and!; [done | by constructor | done].
    + exists [], (c :: a ++ b). by split_and!.
Qed.
End Words.

(** ** strtok_r with the delimiter [" "] *)

Lemma strspn_blank m s :
  strspn m s (lit " ") = scan (fun c => negb (is_blank c)) (drop s m).
Proof.
  apply scan_ext. intros c. unfold member, is_blank. simpl. rewrite orb_false_r.
  destruct (Ascii.eqb_spec c " ") as [->|]; [done | apply orb_true_r].
Qed.

Lemma strcspn_blank m s :
  strcspn m s (lit " ") = scan (fun c => is_nul c || is_blank c) (drop s m).
Proof.
  apply scan_ext. intros c. unfold member, is_blank. simpl. by rewrite orb_false_r.
Qed.

Lemma load_middle {A} (pre : list A) x r : load (pre ++ x :: r) (length pre) = Ret x.
Proof. apply load_lookup. by apply list_lookup_middle. Qed.

Lemma load_middle2 {A} (a b : list A) x r :
  load (a ++ b ++ x :: r) (length a + length b) = Ret x.
Proof. rewrite <-length_app, app_assoc. apply load_middle. Qed.

Lemma blank_skip sp : Forall blank sp -> Forall (fun c => negb (is_blank c) = false) sp.
Proof.
  intros H. eapply Forall_impl; [exact H|]. intros c Hc. unfold blank in Hc. by rewrite Hc.
Qed.

Lemma word_scan w :
  Forall nonnul w -> unbroken is_blank w ->
  Forall (fun c => is_nul c || is_blank c = false) w.
Proof.
  intros Hn Hw. apply Forall_forall. intros x Hx.
  pose proof (proj1 (Forall_forall _ _) Hn x Hx) as ->.
  by pose proof (proj1 (Forall_forall _ _) Hw x Hx) as ->.
Qed.

(** Only blanks are left: no token. *)
Lemma strtok_r_none pre sp r :
  Forall blank sp ->
  strtok_r (pre ++ sp ++ NUL :: r) (length pre) (lit " ")
  = Ret (pre ++ sp ++ NUL :: r, length pre + length sp, None).
Proof.
  intros Hsp. unfold strtok_r. rewrite strspn_blank, drop_app_length.
  rewrite scan_app by (by try apply blank_skip). simpl.
  rewrite <-length_app, (app_assoc pre sp), load_middle. done.
Qed.

(** The last token ends at the NUL of the text. *)
Lemma strtok_r_last pre sp w r :
  Forall blank sp -> w <> [] -> Forall nonnul w -> unbroken is_blank w ->
  strtok_r (pre ++ sp ++ w ++ NUL :: r) (length pre) (lit " ")
  = Ret (pre ++ sp ++ w ++ NUL :: r, length pre + length sp + length w,
         Some (length pre + length sp)).
Proof.
  intros Hsp Hne Hn Hw. unfold strtok_r. rewrite strspn_blank, drop_app_length.
  destruct w as [|c w]; [done|]. clear Hne.
  pose proof (Forall_inv Hn) as Hc. pose proof (Forall_inv Hw) as Hc'. simpl in Hc'.
  simpl. rewrite scan_app by (by try apply blank_skip; rewrite ?Hc'). simpl.
  rewrite <-length_app, (app_assoc pre sp), load_middle. simpl. rewrite Hc.
  rewrite strcspn_blank, drop_app_length.
  rewrite (scan_app _ (c :: w) NUL r) by (by try apply word_scan). simpl.
  assert (load ((pre ++ sp) ++ c :: w ++ NUL :: r) (length (pre ++ sp) + S (length w))
          = Ret NUL) as -> by apply (load_middle2 (pre ++ sp) (c :: w)).
  simpl. by rewrite length_app, <-app_assoc.
Qed.

(** A token followed by a blank: the blank becomes a NUL. *)
Lemma strtok_r_more pre sp w rest :
  Forall blank sp -> w <> [] -> Forall nonnul w -> unbroken is_blank w ->
  strtok_r (pre ++ sp ++ w ++ " " :: rest) (length pre) (lit " ")
  = Ret (pre ++ sp ++ w ++ NUL :: rest, length pre + length sp + length w + 1,
         Some (length pre + length sp)).
Proof.
  intros Hsp Hne Hn Hw. unfold strtok_r. rewrite strspn_blank, drop_app_length.
  destruct w as [|c w]; [done|]. clear Hne.
  pose proof (Forall_inv Hn) as Hc. pose proof (Forall_inv Hw) as Hc'. simpl in Hc'.
  simpl. rewrite scan_app by (by try apply blank_skip; rewrite ?Hc'). simpl.
  rewrite <-length_app, (app_assoc pre sp), load_middle. simpl. rewrite Hc.
  rewrite strcspn_blank, drop_app_length.
  rewrite (scan_app _ (c :: w) " " rest) by (by try apply word_scan). simpl.
  assert (load ((pre ++ sp) ++ c :: w ++ " " :: rest) (length (pre ++ sp) + S (length w))
          = Ret " ") as -> by apply (load_middle2 (pre ++ sp) (c :: w)).
  simpl. rewrite store_Ret by (autorewrite with len; simpl; lia). simpl.
  rewrite insert_app_r.
  assert (<[S (length w):=NUL]> (c :: w ++ " " :: rest) = c :: w ++ NUL :: rest) as ->.
  { simpl. f_equal. rewrite <-(Nat.add_0_r (length w)). by rewrite insert_app_r. }
  by rewrite length_app, <-app_assoc.
Qed.

(** A text is blank, or starts with blanks, a token, and then ends or goes
    on with a blank. *)
Lemma token_split (s : list ascii) :
  Forall blank s \/
  exists sp w s2, s = sp ++ w ++ s2 /\ Forall blank sp /\ w <> [] /\
                  unbroken is_blank w /\ (s2 = [] \/ exists s3, s2 = " " :: s3).
Proof.
  destruct (run_split is_blank s) as (sp & b & -> & Hsp & Hb).
  destruct b as [|c b]; [left; by rewrite app_nil_r|]. right.
  destruct (run_split (fun x => negb (is_blank x)) (c :: b)) as (w & s2 & E & Hw & Hs2).
  exists sp, w, s2. rewrite E. split_and!; [done..| | |].
  - intros ->. simpl in E. subst s2. by rewrite Hb in Hs2.
  - eapply Forall_impl; [exact Hw|]. intros x Hx. by apply negb_true_iff.
  - destruct s2 as [|d s3]; [by left|]. right. exists s3.
    apply negb_false_iff, Ascii.eqb_eq in Hs2. by subst d.
Qed.

(** A string stays what it is when the buffer changes behind its NUL. *)
Lemma cstr_frame m m' p u k :
  cstr m p = Ret u -> take k m' = take k m -> p + length u < k -> cstr m' p = Ret u.
Proof.
  intros (rest & Hm & Hl & Hu)%cstr_Ret Hk Hlt.
  set (pre := take p m) in *. clearbody pre. subst p.
  assert (m' = pre ++ u ++ NUL :: (take (k - length (pre ++ u ++ [NUL])) rest ++ drop k m'))
    as ->; [|by apply cstr_app].
  rewrite <-(take_drop k m') at 1. rewrite Hk, Hm.
  replace (pre ++ u ++ NUL :: rest) with ((pre ++ u ++ [NUL]) ++ rest)
    by (by rewrite <-!app_assoc).
  rewrite take_app_ge by (autorewrite with len; simpl; lia).
  by rewrite <-!app_assoc.
Qed.

(** One call of [strtok_r] on the text [s] that is left at [line]. *)
Lemma strtok_r_spec m line s :
  cstr m line = Ret s ->
  exists m' line' token s',
    strtok_r m line (lit " ") = Ret (m', line', token) /\
    length m' = length m /\ line <= line' /\
    (forall p u, cstr m p = Ret u -> p + length u <= line -> cstr m' p = Ret u) /\
    cstr m' line' = Ret s' /\
    match token with
    | None => words is_blank s = []
    | Some t => exists w, words is_blank s = w :: words is_blank s' /\
                          cstr m' t = Ret w /\ t + length w <= line'
    end.
Proof.
  intros (r & Hm & Hl & Hs)%cstr_Ret.
  set (pre := take line m) in *. clearbody pre. subst line.
  destruct (token_split s) as [Hbl | (sp & w & s2 & -> & Hsp & Hne & Hw & Hs2)].
  - subst m. eexists _, _, _, []. rewrite strtok_r_none by done.
    split_and!; [done|done|lia|done| |].
    + rewrite app_assoc, <-length_app. by apply (cstr_app _ []).
    + rewrite <-(app_nil_r s), words_seps by done. apply words_nil.
  - apply Forall_app in Hs as [_ Hs]. apply Forall_app in Hs as [Hnw Hn2].
    destruct Hs2 as [-> | [s3 ->]].
    + rewrite app_nil_r, <-!app_assoc in Hm. subst m.
      eexists _, _, _, []. rewrite strtok_r_last by done.
      split_and!; [done|done|lia|done| |].
      * rewrite !app_assoc, <-!length_app. by apply (cstr_app _ []).
      * exists w. split_and!; [|  |lia].
        -- rewrite app_nil_r, words_nil, words_seps by done. by apply words_word.
        -- rewrite app_assoc, <-length_app. by apply cstr_app.
    + repeat (rewrite <-app_assoc in Hm; simpl in Hm). subst m.
      eexists _, _, _, s3. rewrite strtok_r_more by done.
      split_and!; [done| |lia| | |].
      * autorewrite with len. simpl. autorewrite with len. simpl. lia.
      * intros p u Hu Hp.
        apply (cstr_frame _ _ p u (length (pre ++ sp ++ w)) Hu).
        -- rewrite !app_assoc. rewrite !take_app_length'; [done|..];
             by rewrite <-!app_assoc.
        -- autorewrite with len. destruct w; [done|]. simpl. lia.
      * replace (pre ++ sp ++ w ++ NUL :: s3 ++ NUL :: r)
          with ((pre ++ sp ++ w ++ [NUL]) ++ s3 ++ NUL :: r)
          by (by rewrite <-!app_assoc).
        replace (length pre + length sp + length w + 1)
          with (length (pre ++ sp ++ w ++ [NUL]))
          by (autorewrite with len; simpl; lia).
        apply cstr_app. by apply Forall_cons in Hn2 as [_ ?].
      * exists w. split_and!; [|  |lia].
        -- rewrite words_seps by done. by apply words_app.
        -- rewrite app_assoc, <-length_app. by apply cstr_app.
Qed.

(** ** The tokenizer *)

#[local] Arguments list_ascii_of_string : simpl never.
#[local] Arguments MAX_ARGS : simpl never.

Lemma token_at_mono m m' line line' c w :
  token_at m line c w -> line <= line' ->
  (forall p u, cstr m p = Ret u -> p + length u <= line -> cstr m' p = Ret u) ->
  token_at m' line' c w.
Proof.
  intros (p & -> & Hp & Hle) Hl Hframe. exists p. split_and!; [done| |lia].
  by apply Hframe.
Qed.

Lemma tokenize_loop_S n m line t tokens size :
  tokenize_loop (S n) m line (Some t) tokens size =
    tokens ← store tokens size (Addr t);
    '(m, line, token) ← strtok_r m line (lit " ");
    tokenize_loop n m line token tokens (size + 1).
Proof. reflexivity. Qed.

Lemma tokenize_loop_None n m line tokens size :
  tokenize_loop n m line None tokens size = Ret (m, tokens, size).
Proof. by destruct n. Qed.

Lemma tokenize_loop_spec n :
  forall m line token tokens size s found pending,
    length tokens = size + n ->
    cstr m line = Ret s ->
    Forall2 (token_at m line) (take size tokens) found ->
    match token with
    | None => pending = []
    | Some t => exists w, token_at m line (Addr t) w /\ pending = w :: words is_blank s
    end ->
    exists m' tokens' size' line',
      tokenize_loop n m line token tokens size = Ret (m', tokens', size') /\
      size' = min (size + length pending) (size + n) /\
      length tokens' = length tokens /\ length m' = length m /\
      Forall2 (token_at m' line') (take size' tokens') (take size' (found ++ pending)).
Proof.
  induction n as [|n IH]; intros m line token tokens size s found pending Hlen Hs Hfound Htok.
  - exists m, tokens, size, line.
    assert (length found = size) as Hf.
    { apply Forall2_length in Hfound. rewrite length_take in Hfound. lia. }
    split_and!; [by destruct token|lia|done|done|].
    by rewrite take_app_length' by lia.
  - destruct token as [t|].
    + destruct Htok as (w & Hw & ->).
      rewrite tokenize_loop_S, store_Ret by lia. simpl mbind.
      destruct (strtok_r_spec m line s Hs)
        as (m1 & line1 & token1 & s1 & -> & Hl1 & Hle & Hframe & Hs1 & Ht1).
      simpl.
      assert (length found = size) as Hf.
      { apply Forall2_length in Hfound. rewrite length_take in Hfound. lia. }
      destruct (IH m1 line1 token1 (<[size:=Addr t]> tokens) (size + 1) s1 (found ++ [w])
                   (match token1 with None => [] | Some _ => words is_blank s end))
        as (m' & tokens' & size' & line' & -> & Hsz & Hlt & Hlm & Hall).
      * rewrite length_insert. lia.
      * done.
      * replace (size + 1) with (S size) by lia.
        rewrite (take_S_r _ _ (Addr t)) by (apply list_lookup_insert_eq; lia).
        rewrite take_insert_ge by lia. apply Forall2_app.
        -- eapply Forall2_impl; [exact Hfound|]. intros c u Hc.
           by apply (token_at_mono m m1 line line1).
        -- constructor; [|constructor]. by apply (token_at_mono m m1 line line1).
      * destruct token1 as [t1|]; [|done].
        destruct Ht1 as (w1 & Hw1 & Hc1 & Hle1). exists w1. split; [|done].
        exists t1. by split_and!.
      * exists m', tokens', size', line'. split_and!; [done| |by rewrite Hlt, length_insert|congruence|].
        -- rewrite Hsz. destruct token1 as [t1|].
           ++ simpl. lia.
           ++ rewrite Ht1. simpl. lia.
        -- rewrite <-app_assoc in Hall. simpl in Hall.
           destruct token1 as [t1|]; [done|]. by rewrite Ht1.
    + subst pending. exists m, tokens, size, line.
      assert (length found = size) as Hf.
      { apply Forall2_length in Hfound. rewrite length_take in Hfound. lia. }
      split_and!; [apply tokenize_loop_None|simpl; lia|done|done|].
      by rewrite app_nil_r, (take_ge found) by lia.
Qed.

(** Lines 45-51 on the job text [s]: every word of [s], up to [MAX_ARGS],
    has its slot. *)
Lemma tokenize_spec m line s :
  cstr m line = Ret s ->
  exists m' tokens size,
    tokenize m line = Ret (m', tokens, size) /\
    size = min (length (words is_blank s)) MAX_ARGS /\
    length tokens = MAX_ARGS /\ length m' = length m /\
    Forall2 (points_to m') (take size tokens) (take size (words is_blank s)).
Proof.
  intros Hs.
  destruct (strtok_r_spec m line s Hs)
    as (m1 & line1 & token1 & s1 & E & Hl1 & Hle & Hframe & Hs1 & Ht1).
  assert (tokenize m line
          = tokenize_loop MAX_ARGS m1 line1 token1 (replicate MAX_ARGS Garbage) 0) as ->
    by (unfold tokenize; by rewrite E).
  destruct (tokenize_loop_spec MAX_ARGS m1 line1 token1 (replicate MAX_ARGS Garbage) 0 s1 []
              (words is_blank s))
    as (m' & tokens' & size' & line' & -> & Hsz & Hlt & Hlm & Hall).
  - by rewrite length_replicate.
  - done.
  - constructor.
  - destruct token1 as [t1|]; [|done].
    destruct Ht1 as (w1 & Hw1 & Hc1 & Hle1). exists w1. split; [|done].
    exists t1. by split_and!.
  - exists m', tokens', size'. split_and!; [done|done|by rewrite Hlt, length_replicate|congruence|].
    simpl in Hall. eapply Forall2_impl; [exact Hall|].
    intros c u (p & -> & Hp & _). by exists p.
Qed.

Lemma strings_at_points_to m cs ws :
  Forall2 (points_to m) cs ws -> strings_at m cs = Ret ws.
Proof.
  induction 1 as [|c w cs ws (p & -> & Hp) _ IH]; simpl; [done|].
  by rewrite Hp, IH.
Qed.

Lemma take_min_length {A} (l : list A) n : take (min (length l) n) l = take n l.
Proof.
  destruct (decide (length l <= n)).
  - by rewrite min_l, !take_ge by lia.
  - by rewrite min_r by lia.
Qed.

Lemma arguments_spec m line s :
  cstr m line = Ret s -> arguments m line = Ret (take MAX_ARGS (words is_blank s)).
Proof.
  intros Hs.
  destruct (tokenize_spec m line s Hs) as (m' & tokens & size & E & -> & _ & _ & Hall).
  unfold arguments. rewrite E. simpl.
  rewrite (strings_at_points_to _ _ _ Hall). by rewrite take_min_length.
Qed.

(** C5, as the code has it: the arguments are the words of the job text
    between blanks (the character [" "] alone; a tab stays inside its
    word), the first [MAX_ARGS] of them; no word is empty and none holds a
    blank. *)
Theorem tokenizer_words (m : mem) (line : nat) (s : list ascii) :
  cstr m line = Ret s ->
  arguments m line = Ret (take MAX_ARGS (words is_blank s)) /\
  Forall (fun w => w <> [] /\ unbroken is_blank w) (words is_blank s).
Proof. intros Hs. split; [by apply arguments_spec | apply words_ok]. Qed.

Lemma tokenizer_words_witness :
  arguments (lit "echo   a  b" ++ [NUL]) 0 = Ret [lit "echo"; lit "a"; lit "b"].
Proof.
  destruct (tokenizer_words (lit "echo   a  b" ++ [NUL]) 0 (lit "echo   a  b")) as [H _];
    [reflexivity|].
  rewrite H. reflexivity.
Defined.

(** C5 as stated fails: a tab is white space and does not split a job. *)
Lemma tokenizer_keeps_tab :
  let text := lit "a" ++ ["009"] ++ lit "b" in
  cstr (text ++ [NUL]) 0 = Ret text /\
  words isspace text = [lit "a"; lit "b"] /\
  arguments (text ++ [NUL]) 0 = Ret [text] /\
  arguments (text ++ [NUL]) 0 <> Ret (words isspace text) /\
  main os_child [lit "mysh"] [text ++ [nl; NUL]] 0 w_start
    = Exec [text] (printf (lit "$ ") w_start).
Proof. by split_and!. Qed.

(** ** Dispatching a job *)

Lemma exec_command_parsed m line s :
  cstr m line = Ret s -> length (words is_blank s) < MAX_ARGS ->
  exists m' tokens,
    length m' = length m /\
    Forall2 (points_to m') (take (length (words is_blank s)) tokens) (words is_blank s) /\
    tokens !! length (words is_blank s) = Some Null /\
    forall os fg w,
      exec_command os m line fg w
        = dispatch os m' tokens (length (words is_blank s)) fg w.
Proof.
  intros Hs Hlt.
  destruct (tokenize_spec m line s Hs) as (m' & tokens & size & E & Hsz & Hl & Hlm & Hall).
  rewrite min_l in Hsz by lia. subst size.
  exists m', (<[length (words is_blank s) := Null]> tokens). split_and!; [done| | |].
  - rewrite take_insert_ge by lia. by rewrite firstn_all in Hall.
  - apply list_lookup_insert_eq. lia.
  - intros os fg w. unfold exec_command. rewrite E. simpl. rewrite store_Ret by lia. done.
Qed.

(** C1, where the code fails: a job text without a word -- empty, or
    blanks only -- leaves [tokens[0]] null, and [strcmp] dereferences it;
    the line [;;] ends the shell that way. *)
Theorem empty_job_null_deref (os : OS) (m : mem) (line : nat) (fg : bool) (w : world)
    (s : list ascii) :
  cstr m line = Ret s -> words is_blank s = [] ->
  arguments m line = Ret [] /\
  exec_command os m line fg w = Fault NullDeref.
Proof.
  intros Hs Hw. split.
  - rewrite (arguments_spec m line s Hs). by rewrite Hw.
  - destruct (exec_command_parsed m line s Hs) as (m' & tokens & _ & _ & H0 & ->).
    { rewrite Hw. simpl. unfold MAX_ARGS. lia. }
    rewrite Hw in H0 |- *. simpl in H0. unfold dispatch, load. by rewrite H0.
Qed.

Lemma empty_job_null_deref_witness :
  main os_fine [lit "mysh"] [lit ";;" ++ [nl; NUL]] 0 w_start = Fault NullDeref /\
  exec_command os_fine [NUL; NUL; NUL] 0 true (printf (lit "$ ") w_start) = Fault NullDeref.
Proof.
  split; [reflexivity|].
  by apply (empty_job_null_deref os_fine [NUL; NUL; NUL] 0 true _ []).
Defined.

(** C6, where the code fails: with [MAX_ARGS] words or more in the job
    text all 128 slots hold tokens and the sentinel is stored at
    [tokens[128]], outside the array. *)
Theorem sentinel_out_of_bounds (os : OS) (m : mem) (line : nat) (fg : bool) (w : world)
    (s : list ascii) :
  cstr m line = Ret s -> MAX_ARGS <= length (words is_blank s) ->
  exec_command os m line fg w = Fault OutOfBounds.
Proof.
  intros Hs Hge.
  destruct (tokenize_spec m line s Hs) as (m' & tokens & size & E & Hsz & Hl & _).
  rewrite min_r in Hsz by lia. subst size.
  unfold exec_command. rewrite E. simpl. unfold store. rewrite decide_False by lia. done.
Qed.

Lemma sentinel_out_of_bounds_witness :
  exec_command os_fine (concat (replicate 128 (lit "a ")) ++ [NUL]) 0 true w_start
  = Fault OutOfBounds.
Proof.
  apply (sentinel_out_of_bounds _ _ _ _ _ (concat (replicate 128 (lit "a ")))).
  - reflexivity.
  - by vm_compute.
Defined.

Lemma streq_points_to m c a s :
  points_to m c a -> streq m c s = Ret (bool_decide (a = s)).
Proof. intros (p & -> & Hp). unfold streq. simpl. by rewrite Hp. Qed.

(** What [dispatch] does with a vector whose first word is [exit]. *)
Lemma dispatch_exit os m tokens size fg w c0 :
  tokens !! 0 = Some c0 -> points_to m c0 (lit "exit") ->
  dispatch os m tokens size fg w = Halt AtExitBuiltin 0 w.
Proof.
  intros H0 Hc. unfold dispatch.
  rewrite (load_lookup _ _ _ H0), ret_bind.
  rewrite (streq_points_to _ _ _ (lit "exit") Hc), ret_bind.
  by rewrite bool_decide_eq_true_2.
Qed.

(** ... and with one whose first word is [cd]. *)
Lemma dispatch_cd os m tokens size fg w c0 :
  tokens !! 0 = Some c0 -> points_to m c0 (lit "cd") ->
  dispatch os m tokens size fg w =
    if decide (1 < size) then
      t1 ← load tokens 1;
      dir ← string_at m t1;
      match sys_chdir os w dir with
      | Some d => Ret (m, set_cwd d w)
      | None => Ret (m, printf (cd_diagnostic dir) w)
      end
    else Ret (m, w).
Proof.
  intros H0 Hc. unfold dispatch.
  rewrite (load_lookup _ _ _ H0), ret_bind.
  rewrite (streq_points_to _ _ _ (lit "exit") Hc), ret_bind.
  rewrite bool_decide_eq_false_2 by (by vm_compute).
  rewrite (streq_points_to _ _ _ (lit "cd") Hc), ret_bind.
  by rewrite bool_decide_eq_true_2.
Qed.

Lemma exec_command_cd m line s args :
  cstr m line = Ret s -> length (words is_blank s) < MAX_ARGS ->
  words is_blank s = lit "cd" :: args ->
  exists m', forall os fg w,
    exec_command os m line fg w =
      match args with
      | [] => Ret (m', w)
      | dir :: _ =>
          match sys_chdir os w dir with
          | Some d => Ret (m', set_cwd d w)
          | None => Ret (m', printf (cd_diagnostic dir) w)
          end
      end.
Proof.
  intros Hs Hlt Hw.
  destruct (exec_command_parsed m line s Hs Hlt) as (m' & tokens & _ & Hall & _ & E).
  exists m'. intros os fg w. rewrite E. clear E. rewrite Hw in Hall |- *.
  destruct (Forall2_lookup_r _ _ _ 0 _ Hall eq_refl) as (c0 & [H0 _]%lookup_take_Some & Hc0).
  rewrite (dispatch_cd _ _ _ _ _ _ c0) by done.
  destruct args as [|dir args]; simpl.
  - done.
  - destruct (Forall2_lookup_r _ _ _ 1 _ Hall eq_refl)
      as (c1 & [H1 _]%lookup_take_Some & (p1 & -> & Hp1)).
    rewrite (load_lookup _ _ _ H1). simpl. rewrite Hp1. done.
Qed.

(** C8: a [cd] whose target cannot be entered leaves the working
    directory as it is, prints the one diagnostic that names the target,
    creates no child and returns to the loop; a [cd] without a target
    changes nothing. *)
Theorem cd_builtin (os : OS) (m : mem) (line : nat) (fg : bool) (w : world)
    (s : list ascii) :
  cstr m line = Ret s -> length (words is_blank s) < MAX_ARGS ->
  (forall target rest,
     words is_blank s = lit "cd" :: target :: rest -> sys_chdir os w target = None ->
     exists m' w',
       exec_command os m line fg w = Ret (m', w') /\
       cwd w' = cwd w /\ children w' = children w /\ err w' = err w /\
       out w' = out w ++ [lit "shell: cd: " ++ target
                          ++ lit ": No such file or directory" ++ [nl]]) /\
  (words is_blank s = [lit "cd"] ->
     exists m', exec_command os m line fg w = Ret (m', w)).
Proof.
  intros Hs Hlt. split.
  - intros target rest Hw Hcd.
    destruct (exec_command_cd m line s _ Hs Hlt Hw) as (m' & ->).
    rewrite Hcd. by eexists _, _.
  - intros Hw. destruct (exec_command_cd m line s _ Hs Hlt Hw) as (m' & ->). eauto.
Qed.

Lemma cd_builtin_witness :
  (exists m',
     exec_command os_fine (lit "cd /nowhere" ++ [NUL]) 0 true w_start
     = Ret (m', printf (lit "shell: cd: /nowhere: No such file or directory" ++ [nl])
                  w_start)) /\
  main os_fine [lit "mysh"] [lit "cd /nowhere" ++ [nl; NUL]; lit "cd" ++ [nl; NUL]] 0 w_start
  = Halt AtEndOfInput 0
      {| cwd := lit "/";
         out := [lit "$ "; lit "shell: cd: /nowhere: No such file or directory" ++ [nl];
                 lit "$ "; lit "$ "; [nl] ++ lit "Shutting down..." ++ [nl]];
         err := [];
         children := [] |}.
Proof.
  split; [|reflexivity].
  destruct (cd_builtin os_fine (lit "cd /nowhere" ++ [NUL]) 0 true w_start (lit "cd /nowhere"))
    as [H _]; [reflexivity | vm_compute; lia |].
  destruct (H (lit "/nowhere") []) as (m' & w' & E & _); [reflexivity..|].
  exists m'. rewrite E. f_equal. vm_compute in E. by injection E as _ <-.
Defined.

(** C10: the builtins do not look at the flag.  A background job whose
    first word is [exit] ends the shell with status 0; a background [cd]
    is run by the shell itself, as a foreground one is, with no child
    created. *)
Theorem builtins_ignore_flag (os : OS) (m : mem) (line : nat) (w : world)
    (s : list ascii) :
  cstr m line = Ret s -> length (words is_blank s) < MAX_ARGS ->
  (forall args, words is_blank s = lit "exit" :: args ->
     exec_command os m line false w = Halt AtExitBuiltin 0 w) /\
  (forall args, words is_blank s = lit "cd" :: args ->
     exists m' w',
       exec_command os m line false w = Ret (m', w') /\
       exec_command os m line true w = Ret (m', w') /\
       children w' = children w /\
       match args with
       | [] => w' = w
       | target :: _ =>
           match sys_chdir os w target with
           | Some d => cwd w' = d /\ out w' = out w
           | None => cwd w' = cwd w /\ out w' = out w ++ [cd_diagnostic target]
           end
       end).
Proof.
  intros Hs Hlt. split.
  - intros args Hw.
    destruct (exec_command_parsed m line s Hs Hlt) as (m' & tokens & _ & Hall & _ & ->).
    rewrite Hw in Hall.
    destruct (Forall2_lookup_r _ _ _ 0 _ Hall eq_refl) as (c0 & [H0 _]%lookup_take_Some & Hc0).
    by apply (dispatch_exit _ _ _ _ _ _ c0).
  - intros args Hw.
    destruct (exec_command_cd m line s _ Hs Hlt Hw) as (m' & E). rewrite !E.
    destruct args as [|target rest]; [by eexists _, _|].
    destruct (sys_chdir os w target); by eexists _, _.
Qed.

Lemma builtins_ignore_flag_witness :
  main os_fine [lit "mysh"] [lit "exit&" ++ [nl; NUL]] 0 w_start
    = Halt AtExitBuiltin 0 (printf (lit "$ ") w_start) /\
  exec_command os_fine (lit "exit" ++ [NUL]) 0 false w_start = Halt AtExitBuiltin 0 w_start.
Proof.
  split; [reflexivity|].
  destruct (builtins_ignore_flag os_fine (lit "exit" ++ [NUL]) 0 w_start (lit "exit"))
    as [H _]; [reflexivity | vm_compute; lia |].
  by apply (H []).
Defined.

(** ** What a call returns *)

Lemma returns_bind {A B} (P : A -> Prop) (Q : B -> Prop) r (f : A -> result B) :
  returns P r -> (forall a, P a -> returns Q (f a)) -> returns Q (r ≫= f).
Proof. destruct r; simpl; auto. Qed.

Lemma returns_bind_any {A B} (Q : B -> Prop) (r : result A) (f : A -> result B) :
  (forall a, returns Q (f a)) -> returns Q (r ≫= f).
Proof. destruct r; simpl; auto. Qed.

Lemma store_length {A} (a : list A) i x :
  returns (fun a' => length a' = length a) (store a i x).
Proof. unfold store. case_decide; simpl; [apply length_insert | done]. Qed.

Lemma strtok_r_length m s delim :
  returns (fun r => length r.1.1 = length m) (strtok_r m s delim).
Proof.
  unfold strtok_r. apply returns_bind_any; intros n. apply returns_bind_any; intros c.
  destruct (is_nul c); simpl; [done|].
  apply returns_bind_any; intros k. apply returns_bind_any; intros c'.
  destruct (is_nul c'); simpl; [done|].
  eapply returns_bind; [apply store_length|]. by intros m' Hm'.
Qed.

Lemma tokenize_loop_length n :
  forall m line token tokens size,
    returns (fun r => length r.1.1 = length m) (tokenize_loop n m line token tokens size).
Proof.
  induction n as [|n IH]; intros m line token tokens size; [by destruct token|].
  destruct token as [t|]; [|done]. rewrite tokenize_loop_S.
  apply returns_bind_any; intros tokens'.
  eapply returns_bind; [apply strtok_r_length|].
  intros [[m' line'] token'] Hm'. simpl in Hm'. rewrite <-Hm'. apply IH.
Qed.

Lemma tokenize_length m line :
  returns (fun r => length r.1.1 = length m) (tokenize m line).
Proof.
  unfold tokenize. eapply returns_bind; [apply strtok_r_length|].
  intros [[m' line'] token'] Hm'. simpl in Hm'. rewrite <-Hm'. apply tokenize_loop_length.
Qed.

Lemma dispatch_buffer os m tokens size fg w :
  returns (fun r => r.1 = m) (dispatch os m tokens size fg w).
Proof.
  unfold dispatch.
  repeat first
    [ done
    | apply returns_bind_any; intros ?
    | case_decide
    | case_match ].
Qed.

(** [exec_command] leaves the buffer as long as it was. *)
Lemma exec_command_length os m line fg w :
  returns (fun r => length r.1 = length m) (exec_command os m line fg w).
Proof.
  unfold exec_command. eapply returns_bind; [apply tokenize_length|].
  intros [[m' tokens] size] Hm'. simpl in Hm'.
  apply returns_bind_any; intros tokens'.
  pose proof (dispatch_buffer os m' tokens' size fg w) as H.
  destruct (dispatch os m' tokens' size fg w) as [[m2 w2]| | |]; simpl in *; congruence.
Qed.

Lemma for_each_job_end {W} (exec : mem -> nat -> bool -> W -> result (mem * W))
    avail m line w :
  length m <= line -> for_each_job exec avail m line w = Fault OutOfBounds.
Proof.
  intros Hle. destruct avail as [|avail]; [done|].
  rewrite for_each_job_S. unfold strpbrk, strcspn. by rewrite drop_ge by lia.
Qed.

(** The bytes from [line] on are all [for_each_job] needs to be given: with
    that many or more the loop runs the same. *)
Lemma for_each_job_avail {W} (exec : mem -> nat -> bool -> W -> result (mem * W)) :
  (forall m line fg w, returns (fun r => length r.1 = length m) (exec m line fg w)) ->
  forall a1 a2 m line w,
    length m - line <= a1 -> length m - line <= a2 ->
    for_each_job exec a1 m line w = for_each_job exec a2 m line w.
Proof.
  intros Hexec a1. induction a1 as [|a1 IH]; intros a2 m line w H1 H2.
  - by rewrite !for_each_job_end by lia.
  - destruct a2 as [|a2]; [by rewrite !for_each_job_end by lia|].
    rewrite !for_each_job_S.
    destruct (strpbrk m line (lit ";&")) as [[next|]| | |] eqn:Hp; try done.
    rewrite !ret_bind.
    assert (line <= next) as Hnext.
    { unfold strpbrk in Hp. apply bind_Ret in Hp as (n & _ & Hp).
      apply bind_Ret in Hp as (c & _ & Hp). destruct (is_nul c); [done|].
      injection Hp as <-. lia. }
    destruct (load m next) as [c| | |]; try done. rewrite !ret_bind.
    pose proof (store_length m next NUL) as Hst.
    destruct (store m next NUL) as [m1| | |]; try done. rewrite !ret_bind.
    simpl in Hst.
    pose proof (Hexec m1 line (Ascii.eqb c ";") w) as Hex.
    destruct (exec m1 line (Ascii.eqb c ";") w) as [[m2 w2]| | |]; try done.
    rewrite !ret_bind. simpl in Hex. apply IH; lia.
Qed.

(** One call of [strtok_r] leaves the end of the text where it is and the
    buffer behind it as it is. *)
Lemma strtok_r_tail m line s :
  cstr m line = Ret s ->
  returns (fun r => exists s', cstr r.1.1 r.1.2 = Ret s' /\
                      r.1.2 + length s' = line + length s /\
                      drop (line + length s) r.1.1 = drop (line + length s) m)
          (strtok_r m line (lit " ")).
Proof.
  intros (r & Hm & Hl & Hs)%cstr_Ret.
  set (pre := take line m) in *. clearbody pre. subst line.
  destruct (token_split s) as [Hbl | (sp & w & s2 & -> & Hsp & Hne & Hw & Hs2)].
  - subst m. rewrite strtok_r_none by done. exists []. simpl. split_and!; [|lia|done].
    rewrite app_assoc, <-length_app. by apply (cstr_app _ []).
  - apply Forall_app in Hs as [_ Hs]. apply Forall_app in Hs as [Hnw Hn2].
    destruct Hs2 as [-> | [s3 ->]].
    + rewrite app_nil_r, <-!app_assoc in Hm. subst m.
      rewrite strtok_r_last by done. exists []. simpl. split_and!; [| |done].
      * rewrite !app_assoc, <-!length_app. by apply (cstr_app _ []).
      * autorewrite with len. simpl. lia.
    + repeat (rewrite <-app_assoc in Hm; simpl in Hm). subst m.
      rewrite strtok_r_more by done. exists s3. simpl. split_and!.
      * replace (pre ++ sp ++ w ++ NUL :: s3 ++ NUL :: r)
          with ((pre ++ sp ++ w ++ [NUL]) ++ s3 ++ NUL :: r)
          by (by rewrite <-!app_assoc).
        replace (length pre + length sp + length w + 1)
          with (length (pre ++ sp ++ w ++ [NUL]))
          by (autorewrite with len; simpl; lia).
        apply cstr_app. by apply Forall_cons in Hn2 as [_ ?].
      * autorewrite with len. simpl. lia.
      * replace (pre ++ sp ++ w ++ NUL :: s3 ++ NUL :: r)
          with ((pre ++ sp ++ w ++ NUL :: s3) ++ NUL :: r)
          by (repeat (rewrite <-app_assoc; simpl); done).
        replace (pre ++ sp ++ w ++ " " :: s3 ++ NUL :: r)
          with ((pre ++ sp ++ w ++ " " :: s3) ++ NUL :: r)
          by (repeat (rewrite <-app_assoc; simpl); done).
        rewrite !drop_app_length'; [done|..]; autorewrite with len; simpl;
          autorewrite with len; simpl; lia.
Qed.

Lemma tokenize_loop_tail n :
  forall m line token tokens size s,
    cstr m line = Ret s ->
    returns (fun r => drop (line + length s) r.1.1 = drop (line + length s) m)
            (tokenize_loop n m line token tokens size).
Proof.
  induction n as [|n IH]; intros m line token tokens size s Hs; [by destruct token|].
  destruct token as [t|]; [|done]. rewrite tokenize_loop_S.
  apply returns_bind_any; intros tokens'.
  eapply returns_bind; [by apply strtok_r_tail|].
  intros [[m' line'] token'] (s' & Hs' & Hend & Hdrop). cbn [fst snd] in *.
  rewrite <-Hdrop, <-Hend. by apply IH.
Qed.

Lemma tokenize_tail m line s :
  cstr m line = Ret s ->
  returns (fun r => drop (line + length s) r.1.1 = drop (line + length s) m)
          (tokenize m line).
Proof.
  intros Hs. unfold tokenize. eapply returns_bind; [by apply strtok_r_tail|].
  intros [[m1 line1] token1] (s1 & Hs1 & Hend & Hdrop). cbn [fst snd] in *.
  rewrite <-Hdrop, <-Hend. by apply tokenize_loop_tail.
Qed.

(** [exec_command] writes inside the text of its job only. *)
Lemma exec_command_tail os m line fg w s :
  cstr m line = Ret s ->
  returns (fun r => drop (line + length s) r.1 = drop (line + length s) m)
          (exec_command os m line fg w).
Proof.
  intros Hs. unfold exec_command. eapply returns_bind; [by apply tokenize_tail|].
  intros [[m2 tokens] size] H2. cbn [fst snd] in *.
  apply returns_bind_any; intros tokens'.
  pose proof (dispatch_buffer os m2 tokens' size fg w) as H3.
  destruct (dispatch os m2 tokens' size fg w) as [[m3 w3]| | |]; try done.
  cbn [returns fst snd] in *. by subst m3.
Qed.

(** In the loop of [main]: when [exec_command] has run the job in front of
    a terminator, the text behind the terminator is still there to scan. *)
Lemma next_job_text os m line fg w text t rest :
  cstr m line = Ret (text ++ t :: rest) -> Forall plain text -> is_terminator t = true ->
  returns (fun r => cstr r.1 (line + length text + 1) = Ret rest)
          (exec_command os (<[line + length text := NUL]> m) line fg w).
Proof.
  intros Hm Htext Ht.
  destruct (strpbrk_terminator _ _ _ _ _ Hm Htext Ht) as (_ & _ & Hc).
  pose proof (exec_command_tail os _ line fg w text Hc) as H.
  destruct (exec_command os _ line fg w) as [[m2 w2]| | |]; try done.
  cbn [returns fst snd] in *.
  assert (drop (line + length text + 1) m2 = drop (line + length text + 1) m) as Hd.
  { rewrite <-(drop_drop m2 1 (line + length text)), H.
    by rewrite drop_drop, drop_insert_lt by lia. }
  apply cstr_Ret in Hm as (r & Hm & Hl & Hs).
  apply Forall_app in Hs as [_ Hs]. apply Forall_cons in Hs as [_ Hs].
  unfold cstr, strlen. rewrite Hd. rewrite Hm.
  replace (take line m ++ (text ++ t :: rest) ++ NUL :: r)
    with ((take line m ++ text ++ [t]) ++ rest ++ NUL :: r)
    by (repeat (rewrite <-app_assoc; simpl); done).
  rewrite drop_app_length' by (autorewrite with len; simpl; lia).
  rewrite scan_app by done. simpl. by rewrite take_app_length.
Qed.

(** The bound [run_line] passes, the length of the buffer, is enough: a
    larger one changes nothing. *)
Lemma run_line_avail os m w avail :
  length m <= avail ->
  for_each_job (exec_command os) avail m 0 w
  = for_each_job (exec_command os) (length m) m 0 w.
Proof.
  intros H. apply for_each_job_avail; [|lia..].
  intros m1 line fg w1. apply exec_command_length.
Qed.

(** ** Exit codes *)

Lemma halts_fit_bind {A B} (r : result A) (f : A -> result B) :
  halts_fit r -> (forall a, halts_fit (f a)) -> halts_fit (r ≫= f).
Proof. destruct r; simpl; auto. Qed.

Create HintDb halts.

Ltac fits := unfold code_fits; split_and!; (try split); intros; simplify_eq; auto; try lia;
             repeat match goal with H : _ \/ _ |- _ => destruct H as [H|H]; try discriminate end.

Lemma fits_builtin : code_fits AtExitBuiltin 0.
Proof. fits. Qed.
Lemma fits_end_of_input : code_fits AtEndOfInput 0.
Proof. fits. Qed.
Lemma fits_fork : code_fits AtForkFailed EXIT_FAILURE.
Proof. unfold EXIT_FAILURE. fits. Qed.
Lemma fits_exec : code_fits AtExecFailed 1.
Proof. fits. Qed.
Lemma fits_open : code_fits AtOpenFailed 1.
Proof. fits. Qed.
Lemma fits_dup : code_fits AtDupFailed 2.
Proof. fits. Qed.
Lemma fits_read : code_fits AtReadFailed 2.
Proof. fits. Qed.

#[local] Hint Resolve fits_builtin fits_end_of_input fits_fork fits_exec fits_open
  fits_dup fits_read : halts.

Lemma halts_fit_Ret {A} (a : A) : halts_fit (Ret a).
Proof. done. Qed.
Lemma halts_fit_Fault {A} f : halts_fit (@Fault A f).
Proof. done. Qed.
Lemma halts_fit_Exec {A} argv w : halts_fit (@Exec A argv w).
Proof. done. Qed.
Lemma halts_fit_Halt {A} s code w : code_fits s code -> halts_fit (@Halt A s code w).
Proof. done. Qed.

#[local] Hint Resolve halts_fit_Ret halts_fit_Fault halts_fit_Exec halts_fit_Halt : halts.

(** Splits a goal [halts_fit e] along the binds and branches of [e]. *)
Ltac halts :=
  repeat first
    [ solve [auto with halts]
    | apply halts_fit_bind; [solve [auto with halts]|intros ?]
    | case_decide
    | case_match ].

Lemma load_halts {A} (a : list A) i : halts_fit (load a i).
Proof. unfold load. halts. Qed.

Lemma store_halts {A} (a : list A) i x : halts_fit (store a i x).
Proof. unfold store. halts. Qed.

Lemma scan_halts stop s : halts_fit (scan stop s).
Proof. destruct (scan_cases stop s) as [[n ->] | ->]; auto with halts. Qed.

#[local] Hint Resolve load_halts store_halts scan_halts : halts.

Lemma strlen_halts m s : halts_fit (strlen m s).
Proof. unfold strlen. halts. Qed.
Lemma strspn_halts m s a : halts_fit (strspn m s a).
Proof. unfold strspn. halts. Qed.
Lemma strcspn_halts m s a : halts_fit (strcspn m s a).
Proof. unfold strcspn. halts. Qed.

#[local] Hint Resolve strlen_halts strspn_halts strcspn_halts : halts.

Lemma strpbrk_halts m s a : halts_fit (strpbrk m s a).
Proof. unfold strpbrk. halts. Qed.
Lemma cstr_halts m s : halts_fit (cstr m s).
Proof. unfold cstr. halts. Qed.
Lemma strtok_r_halts m s d : halts_fit (strtok_r m s d).
Proof. unfold strtok_r. halts. Qed.
Lemma to_int_halts n : halts_fit (to_int n).
Proof. unfold to_int. halts. Qed.

#[local] Hint Resolve strpbrk_halts cstr_halts strtok_r_halts to_int_halts : halts.

Lemma string_at_halts m p : halts_fit (string_at m p).
Proof. unfold string_at. halts. Qed.

#[local] Hint Resolve string_at_halts : halts.

Lemma streq_halts m p s : halts_fit (streq m p s).
Proof. unfold streq. halts. Qed.

Lemma argv_of_halts m tokens : halts_fit (argv_of m tokens).
Proof. induction tokens as [|c tokens IH]; simpl; [done|]. destruct c; halts. Qed.

Lemma preprocess_loop_halts str n : halts_fit (preprocess_loop str n).
Proof. induction n as [|n IH]; simpl; halts. Qed.

#[local] Hint Resolve streq_halts argv_of_halts preprocess_loop_halts : halts.

Lemma preprocess_halts str : halts_fit (preprocess str).
Proof. unfold preprocess. halts. Qed.

Lemma tokenize_loop_halts n :
  forall m line token tokens size, halts_fit (tokenize_loop n m line token tokens size).
Proof.
  induction n as [|n IH]; intros m line token tokens size; [by destruct token|].
  destruct token as [t|]; [|done]. rewrite tokenize_loop_S. halts.
Qed.

#[local] Hint Resolve preprocess_halts tokenize_loop_halts : halts.

Lemma tokenize_halts m line : halts_fit (tokenize m line).
Proof. unfold tokenize. halts. Qed.

Lemma dispatch_halts os m tokens size fg w : halts_fit (dispatch os m tokens size fg w).
Proof. unfold dispatch. halts. Qed.

#[local] Hint Resolve tokenize_halts dispatch_halts : halts.









(** * Further properties *)

(** ** The line preprocess leaves *)

Lemma rtrim_blank s : Forall space s -> rtrim s = [].
Proof.
  induction 1 as [|c s Hc _ IH]; simpl; [done|]. unfold space in Hc. by rewrite IH, Hc.
Qed.

Lemma rtrim_last body c ws :
  isspace c = false -> Forall space ws -> rtrim (body ++ c :: ws) = body ++ [c].
Proof.
  intros Hc Hws. induction body as [|x body IH]; simpl.
  - by rewrite rtrim_blank, Hc.
  - rewrite IH. by destruct body.
Qed.

Lemma normalize_blank s : Forall space s -> normalize s = s.
Proof. intros H. unfold normalize. by rewrite rtrim_blank. Qed.

Lemma normalize_last body c ws :
  isspace c = false -> Forall space ws ->
  normalize (body ++ c :: ws)
  = if is_terminator c then body ++ [c] else body ++ [c; ";"].
Proof.
  intros Hc Hws. unfold normalize. rewrite rtrim_last, last_snoc by done.
  destruct (is_terminator c); [done|]. by rewrite <-app_assoc.
Qed.

(** On a blank line the loop finds nothing to write. *)
Lemma preprocess_blank_buffer s rest :
  Forall space s -> (Z.of_nat (length s) <= INT_MAX)%Z ->
  preprocess (s ++ NUL :: rest) = Ret (s ++ NUL :: rest).
Proof.
  intros Hbl Hlen. unfold preprocess.
  assert (Forall nonnul s) as Hs by (eapply Forall_impl; [done | apply space_nonnul]).
  pose proof (strlen_app [] s rest Hs) as Hn. simpl in Hn. rewrite Hn. simpl.
  rewrite to_int_Ret by done. simpl.
  pose proof (preprocess_loop_skip [] s (NUL :: rest) Hbl) as E. simpl in E.
  by rewrite E.
Qed.

Lemma preprocess_normalizes_aux (m : mem) (s : list ascii) :
  cstr m 0 = Ret s ->
  (Z.of_nat (length s) <= INT_MAX)%Z -> (Z.of_nat (length (normalize s)) <= INT_MAX)%Z ->
  length (normalize s) < length m ->
  exists m', preprocess m = Ret m' /\ cstr m' 0 = Ret (normalize s) /\
             length m' = length m.
Proof.
  intros (rest & -> & Hs)%cstr_Ret0 Hlen Hlen' Hcap.
  destruct (last_nonspace s) as [Hbl | (body & c & ws & -> & Hc & Hws)].
  - exists (s ++ NUL :: rest). rewrite preprocess_blank_buffer by done.
    rewrite normalize_blank by done. split_and!; [done| |done].
    by apply (cstr_app [] s rest).
  - rewrite normalize_last in Hlen', Hcap |- * by done. rewrite <-app_assoc. simpl.
    rewrite <-app_assoc in Hcap. simpl in Hcap.
    apply Forall_app in Hs as [Hb Hs]. apply Forall_cons in Hs as [Hc' _].
    destruct (is_terminator c) eqn:Ht.
    + destruct (preprocess_terminated body c ws rest) as (tail & Hl & ->); try done.
      eexists. split_and!; [done| |].
      * pose proof (cstr_app [] (body ++ [c]) tail) as H. simpl in H.
        rewrite <-app_assoc in H. simpl in H. apply H.
        apply Forall_app. split; [done | by repeat constructor].
      * autorewrite with len in Hl |- *. simpl. autorewrite with len. simpl. lia.
    + autorewrite with len in Hlen', Hcap. simpl in Hlen', Hcap.
      autorewrite with len in Hcap. simpl in Hcap.
      destruct (preprocess_unterminated body c ws rest) as (tail & Hl & ->); try done.
      { autorewrite with len. simpl. lia. }
      eexists. split_and!; [done| |].
      * pose proof (cstr_app [] (body ++ [c; ";"]) tail) as H. simpl in H.
        rewrite <-app_assoc in H. simpl in H. apply H.
        apply Forall_app. split; [done | by repeat constructor].
      * autorewrite with len in Hl |- *. simpl in *. autorewrite with len. simpl. lia.
Qed.

(** X1: [preprocess] turns the line a buffer holds into [normalize] of it
    and keeps the length of the buffer, whenever the normalized line with
    its NUL fits the buffer (and the lengths fit an [int]). *)
Theorem preprocess_normalizes (m : mem) (s : list ascii) :
  cstr m 0 = Ret s ->
  (Z.of_nat (length s) <= INT_MAX)%Z -> (Z.of_nat (length (normalize s)) <= INT_MAX)%Z ->
  length (normalize s) < length m ->
  exists m', preprocess m = Ret m' /\ cstr m' 0 = Ret (normalize s) /\
             length m' = length m.
Proof. apply preprocess_normalizes_aux. Qed.

Lemma preprocess_normalizes_witness :
  exists m', preprocess (lit "ls -l &  " ++ [NUL]) = Ret m' /\
             cstr m' 0 = Ret (lit "ls -l &") /\ length m' = 10.
Proof.
  apply (preprocess_normalizes (lit "ls -l &  " ++ [NUL]) (lit "ls -l &  "));
    [reflexivity | by vm_compute | by vm_compute | vm_compute; lia].
Defined.

(** X2: when the normalized line with its NUL does not fit the buffer --
    the line ends in a character that is neither white space nor a
    terminator, and its NUL is the last byte -- [preprocess] writes behind
    the buffer. *)
Theorem preprocess_needs_room (m : mem) (s : list ascii) :
  cstr m 0 = Ret s ->
  (Z.of_nat (length s) <= INT_MAX)%Z -> (Z.of_nat (length (normalize s)) <= INT_MAX)%Z ->
  length m <= length (normalize s) ->
  preprocess m = Fault OutOfBounds.
Proof.
  intros (rest & -> & Hs)%cstr_Ret0 Hlen Hlen' Hcap.
  destruct (last_nonspace s) as [Hbl | (body & c & ws & -> & Hc & Hws)].
  - rewrite normalize_blank in Hcap by done. autorewrite with len in Hcap.
    simpl in Hcap. lia.
  - rewrite normalize_last in Hlen', Hcap by done.
    apply Forall_app in Hs as [Hb Hs]. apply Forall_cons in Hs as [Hc' _].
    destruct (is_terminator c) eqn:Ht;
      autorewrite with len in Hlen', Hcap; simpl in Hlen', Hcap;
      autorewrite with len in Hcap; simpl in Hcap; [lia|].
    destruct ws as [|x ws]; [|simpl in Hcap; lia].
    destruct rest as [|y rest]; [|simpl in Hcap; lia].
    rewrite <-app_assoc. simpl.
    pose proof (preprocess_at body c [] []) as E. simpl in E.
    rewrite E by done. rewrite Ht, to_int_Ret by lia. simpl.
    rewrite store_Ret by (autorewrite with len; simpl; lia). simpl.
    unfold store. rewrite decide_False; [done|].
    autorewrite with len. simpl. lia.
Qed.

Lemma preprocess_needs_room_witness :
  preprocess (lit "ls" ++ [NUL]) = Fault OutOfBounds.
Proof.
  apply (preprocess_needs_room (lit "ls" ++ [NUL]) (lit "ls"));
    [reflexivity | by vm_compute | by vm_compute | vm_compute; lia].
Defined.

(** A normalized line is blank or ends in a terminator. *)
Lemma normalize_form (s : list ascii) :
  Forall space (normalize s) \/
  exists body t, normalize s = body ++ [t] /\ is_terminator t = true.
Proof.
  destruct (last_nonspace s) as [Hbl | (body & c & ws & -> & Hc & Hws)].
  - left. by rewrite normalize_blank.
  - right. rewrite normalize_last by done. destruct (is_terminator c) eqn:Ht.
    + by exists body, c.
    + exists (body ++ [c]), ";". by rewrite <-app_assoc.
Qed.

(** X3: for a line whose length an [int] holds and whose normalized text
    fits the buffer, [preprocess] returns, and the line it leaves is blank
    or ends in a terminator. *)
Theorem preprocess_normal_form (m : mem) (s : list ascii) :
  cstr m 0 = Ret s ->
  (Z.of_nat (length s) <= INT_MAX)%Z -> (Z.of_nat (length (normalize s)) <= INT_MAX)%Z ->
  length (normalize s) < length m ->
  exists m' s',
    preprocess m = Ret m' /\ cstr m' 0 = Ret s' /\
    (Forall space s' \/ exists body t, s' = body ++ [t] /\ is_terminator t = true).
Proof.
  intros Hs Hlen Hlen' Hcap.
  destruct (preprocess_normalizes_aux m s Hs Hlen Hlen' Hcap) as (m' & Hp & Hs' & _).
  exists m', (normalize s). split_and!; [done..|]. apply normalize_form.
Qed.

Lemma preprocess_normal_form_witness :
  exists m' s',
    preprocess (lit "ls " ++ [NUL]) = Ret m' /\ cstr m' 0 = Ret s' /\
    (Forall space s' \/ exists body t, s' = body ++ [t] /\ is_terminator t = true).
Proof.
  apply (preprocess_normal_form (lit "ls " ++ [NUL]) (lit "ls "));
    [reflexivity | by vm_compute | by vm_compute | vm_compute; lia].
Defined.

(** ** The jobs of a line *)

Lemma jobs_of_plain text s : Forall plain s -> jobs_of text s = [].
Proof.
  intros Hs. revert text. induction Hs as [|c s Hc _ IH]; intros text; simpl; [done|].
  unfold plain in Hc. by rewrite Hc.
Qed.

Lemma jobs_of_app acc text t r :
  Forall plain text -> is_terminator t = true ->
  jobs_of acc (text ++ t :: r) = (acc ++ text, Ascii.eqb t ";") :: jobs_of [] r.
Proof.
  intros Htext Ht. revert acc.
  induction Htext as [|c text Hc _ IH]; intros acc; simpl.
  - by rewrite Ht, app_nil_r.
  - unfold plain in Hc. by rewrite Hc, IH, <-app_assoc.
Qed.

(** A text is plain up to its first terminator, if it has one. *)
Lemma first_terminator (s : list ascii) :
  Forall plain s \/
  exists text t r, s = text ++ t :: r /\ Forall plain text /\ is_terminator t = true.
Proof.
  destruct (run_split (fun c => negb (is_terminator c)) s) as (text & b & -> & Htext & Hb).
  assert (Forall plain text) as Hp.
  { eapply Forall_impl; [exact Htext|]. intros c Hc. by apply negb_true_iff. }
  destruct b as [|t r]; [left; by rewrite app_nil_r|]. right.
  exists text, t, r. split_and!; [done..|]. by apply negb_false_iff.
Qed.

Lemma world_of_bind {W} (r : result (mem * W)) (k : mem * W -> result (mem * W)) :
  world_of (r ≫= k) = r ≫= (fun a => world_of (k a)).
Proof. by destruct r. Qed.

Section Loop.
Context {W : Type} (exec : mem -> nat -> bool -> W -> result (mem * W)).
Context (f : list ascii -> bool -> W -> result W).

(** What [exec] does to the world is read off the text of the job ... *)
Hypothesis exec_text :
  forall m line fg w text,
    cstr m line = Ret text -> world_of (exec m line fg w) = f text fg w.

(** ... and it leaves the buffer behind the job as it is. *)
Hypothesis exec_tail :
  forall m line fg w text,
    cstr m line = Ret text ->
    returns (fun r => drop (line + length text) r.1 = drop (line + length text) m)
            (exec m line fg w).

Lemma for_each_job_jobs n :
  forall s m line w avail,
    length s <= n -> cstr m line = Ret s -> length s < avail ->
    world_of (for_each_job exec avail m line w) = each_job f (jobs_of [] s) w.
Proof.
  induction n as [|n IH]; intros s m line w avail Hn Hs Hav;
    (destruct avail as [|avail]; [lia|]);
    (destruct (first_terminator s) as [Hp | (text & t & r & -> & Htext & Ht)];
     [ rewrite for_each_job_S, (strpbrk_none _ _ _ Hs Hp), jobs_of_plain by done; done |]).
  - autorewrite with len in Hn. simpl in Hn. lia.
  - destruct (strpbrk_terminator _ _ _ _ _ Hs Htext Ht) as (Hp & Hlk & Hc).
    rewrite for_each_job_S, Hp, ret_bind, (load_lookup _ _ t), ret_bind by done.
    rewrite store_Ret, ret_bind by (by eapply lookup_lt_Some).
    rewrite (jobs_of_app [] text t r) by done. simpl.
    rewrite <-(exec_text _ line (Ascii.eqb t ";") w text Hc).
    pose proof (exec_tail _ line (Ascii.eqb t ";") w text Hc) as Htail.
    rewrite world_of_bind.
    destruct (exec (<[line + length text:=NUL]> m) line (Ascii.eqb t ";") w)
      as [[m2 w2]| | |]; try done.
    simpl in Htail |- *. apply IH.
    + autorewrite with len in Hn. simpl in Hn. lia.
    + assert (drop (line + length text + 1) m2 = drop (line + length text + 1) m) as Hd.
      { rewrite <-(drop_drop m2 1 (line + length text)), Htail.
        by rewrite drop_drop, drop_insert_lt by lia. }
      apply cstr_Ret in Hs as (r0 & Hm & Hl & Hnn).
      apply Forall_app in Hnn as [_ Hnn]. apply Forall_cons in Hnn as [_ Hnn].
      unfold cstr, strlen. rewrite Hd. rewrite Hm.
      replace (take line m ++ (text ++ t :: r) ++ NUL :: r0)
        with ((take line m ++ text ++ [t]) ++ r ++ NUL :: r0)
        by (repeat (rewrite <-app_assoc; simpl); done).
      rewrite drop_app_length' by (autorewrite with len; simpl; lia).
      rewrite scan_app by done. simpl. by rewrite take_app_length.
    + autorewrite with len in Hav. simpl in Hav. lia.
Qed.
End Loop.

Lemma each_job_record jobs acc :
  each_job (fun text fg (acc : list (list ascii * bool)) => Ret (acc ++ [(text, fg)])) jobs acc
  = Ret (acc ++ jobs).
Proof.
  revert acc. induction jobs as [|[text fg] jobs IH]; intros acc; simpl.
  - by rewrite app_nil_r.
  - by rewrite IH, <-app_assoc.
Qed.

Lemma record_job_text m line fg (acc : list (list ascii * bool)) text :
  cstr m line = Ret text -> world_of (record_job m line fg acc) = Ret (acc ++ [(text, fg)]).
Proof. intros H. unfold record_job. by rewrite H. Qed.

Lemma record_job_tail m line fg (acc : list (list ascii * bool)) text :
  cstr m line = Ret text ->
  returns (fun r => drop (line + length text) r.1 = drop (line + length text) m)
          (record_job m line fg acc).
Proof. intros H. unfold record_job. by rewrite H. Qed.

Lemma cstr_length m line s : cstr m line = Ret s -> line + length s < length m.
Proof.
  intros (r & Hm & Hl & _)%cstr_Ret. rewrite Hm. autorewrite with len. simpl. lia.
Qed.

Lemma split_jobs_spec_aux m s :
  cstr m 0 = Ret s -> split_jobs m = Ret (jobs_of [] s).
Proof.
  intros Hs. pose proof (cstr_length _ _ _ Hs).
  change (world_of (for_each_job record_job (length m) m 0 []) = Ret (jobs_of [] s)).
  rewrite (for_each_job_jobs record_job _ record_job_text record_job_tail (length s) s)
    by (done || lia).
  apply each_job_record.
Qed.

(** X4: the job splitter yields the jobs of the line it is given, in
    order: one for each terminator, with the text since the terminator
    before and the flag of the terminator; text behind the last terminator
    is no job. *)
Theorem split_jobs_spec (m : mem) (s : list ascii) :
  cstr m 0 = Ret s -> split_jobs m = Ret (jobs_of [] s).
Proof. apply split_jobs_spec_aux. Qed.

Lemma split_jobs_spec_witness :
  split_jobs (lit "ls -l;;sleep 5 & pwd;tail" ++ [NUL])
  = Ret [(lit "ls -l", true); ([], true); (lit "sleep 5 ", false); (lit " pwd", true)].
Proof.
  by rewrite (split_jobs_spec _ (lit "ls -l;;sleep 5 & pwd;tail")).
Defined.

Lemma join_jobs_of acc s t :
  is_terminator t = true ->
  concat (map job_source (jobs_of acc (s ++ [t]))) = acc ++ s ++ [t].
Proof.
  intros Ht.
  assert (forall c, is_terminator c = true -> [if Ascii.eqb c ";" then ";" else "&"] = [c])
    as Hsrc.
  { intros c [->%Ascii.eqb_eq | ->%Ascii.eqb_eq]%orb_true_iff; reflexivity. }
  revert acc. induction s as [|c s IH]; intros acc; simpl.
  - rewrite Ht. simpl. unfold job_source. simpl. by rewrite Hsrc, app_nil_r.
  - destruct (is_terminator c) eqn:Hc.
    + simpl. rewrite IH. unfold job_source. simpl. rewrite Hsrc by done.
      by rewrite <-app_assoc.
    + rewrite IH. by rewrite <-app_assoc.
Qed.

(** X5: splitting a line that ends in a terminator loses nothing: the
    jobs, written out again with their terminators, are the line. *)
Theorem split_jobs_join (m : mem) (body : list ascii) (t : ascii) :
  cstr m 0 = Ret (body ++ [t]) -> is_terminator t = true ->
  exists jobs, split_jobs m = Ret jobs /\ jobs <> [] /\
               concat (map job_source jobs) = body ++ [t].
Proof.
  intros Hs Ht. exists (jobs_of [] (body ++ [t])).
  rewrite (split_jobs_spec_aux m _ Hs). split_and!; [done| |by apply (join_jobs_of [])].
  destruct (first_terminator body) as [Hp | (text & t' & r & -> & Htext & Ht')].
  - by rewrite jobs_of_app.
  - rewrite <-app_assoc. simpl. by rewrite jobs_of_app.
Qed.

Lemma split_jobs_join_witness :
  exists jobs, split_jobs (lit "cd /tmp;make&" ++ [NUL]) = Ret jobs /\ jobs <> [] /\
               concat (map job_source jobs) = lit "cd /tmp;make&".
Proof.
  by apply (split_jobs_join (lit "cd /tmp;make&" ++ [NUL]) (lit "cd /tmp;make") "&").
Defined.

(** ** A job, by its words *)

Lemma argv_of_points_to m ws :
  forall tokens,
    Forall2 (points_to m) (take (length ws) tokens) ws ->
    tokens !! length ws = Some Null ->
    argv_of m tokens = Ret ws.
Proof.
  induction ws as [|a ws IH]; intros tokens Hall Hnull.
  - destruct tokens as [|c tokens]; [done|]. simpl in Hnull. by injection Hnull as ->.
  - destruct tokens as [|c tokens]; [by inversion Hall|].
    simpl in Hall, Hnull. apply Forall2_cons in Hall as [(p & -> & Hp) Hall].
    simpl. rewrite Hp. simpl. by rewrite (IH tokens).
Qed.

(** [dispatch] on a vector that points to the words [ws] does what
    [launch] does on [ws]. *)
Lemma dispatch_launch os m tokens ws fg w :
  Forall2 (points_to m) (take (length ws) tokens) ws ->
  tokens !! length ws = Some Null ->
  world_of (dispatch os m tokens (length ws) fg w) = launch os ws fg w.
Proof.
  intros Hall Hnull. destruct ws as [|name rest].
  - simpl in Hnull. unfold dispatch. by rewrite (load_lookup _ _ _ Hnull).
  - destruct (Forall2_lookup_r _ _ _ 0 _ Hall eq_refl) as (c0 & [H0 _]%lookup_take_Some & Hc0).
    pose proof (argv_of_points_to _ _ _ Hall Hnull) as Hargv.
    unfold dispatch, launch.
    rewrite (load_lookup _ _ _ H0), ret_bind.
    rewrite (streq_points_to _ _ _ (lit "exit") Hc0), ret_bind.
    destruct (bool_decide (name = lit "exit")); [done|].
    rewrite (streq_points_to _ _ _ (lit "cd") Hc0), ret_bind.
    destruct (bool_decide (name = lit "cd")).
    + destruct rest as [|dir rest]; simpl length; [by rewrite decide_False by lia|].
      rewrite decide_True by lia.
      destruct (Forall2_lookup_r _ _ _ 1 _ Hall eq_refl)
        as (c1 & [H1 _]%lookup_take_Some & (p1 & -> & Hp1)).
      rewrite (load_lookup _ _ _ H1), ret_bind. unfold string_at. rewrite Hp1, ret_bind.
      by destruct (sys_chdir os w dir).
    + cbv zeta. repeat case_decide; try done.
      * rewrite Hargv, ret_bind. by destruct (sys_execvp os w (name :: rest)).
      * destruct Hc0 as (p0 & -> & Hp0). destruct fg; [|done].
        unfold string_at. rewrite Hp0.
        by destruct (sys_waitpid os (add_child (sys_fork os w) w) (sys_fork os w)).
Qed.

(** With [MAX_ARGS] words or more the sentinel has no slot. *)
Lemma exec_command_overflow os m line fg w s :
  cstr m line = Ret s -> MAX_ARGS <= length (words is_blank s) ->
  exec_command os m line fg w = Fault OutOfBounds.
Proof.
  intros Hs Hge.
  destruct (tokenize_spec m line s Hs) as (m' & tokens & size & E & Hsz & Hl & _).
  rewrite min_r in Hsz by lia. subst size.
  unfold exec_command. rewrite E. simpl. unfold store. rewrite decide_False by lia. done.
Qed.

Lemma exec_command_launch_aux os m line fg w s :
  cstr m line = Ret s -> length (words is_blank s) < MAX_ARGS ->
  world_of (exec_command os m line fg w) = launch os (words is_blank s) fg w.
Proof.
  intros Hs Hlt.
  destruct (exec_command_parsed m line s Hs Hlt) as (m' & tokens & _ & Hall & Hnull & ->).
  by apply dispatch_launch.
Qed.

(** X6: [exec_command] acts on the words of the job text and on nothing
    else of the buffer: with fewer than [MAX_ARGS] words it does to the
    world what [launch] does with the words. *)
Theorem exec_command_launch (os : OS) (m : mem) (line : nat) (fg : bool) (w : world)
    (s : list ascii) :
  cstr m line = Ret s -> length (words is_blank s) < MAX_ARGS ->
  world_of (exec_command os m line fg w) = launch os (words is_blank s) fg w.
Proof. apply exec_command_launch_aux. Qed.

Lemma exec_command_launch_witness :
  world_of (exec_command os_fine (lit "  cd   /tmp  x" ++ [NUL]) 0 false w_start)
  = Ret (set_cwd (lit "/tmp") w_start).
Proof.
  rewrite (exec_command_launch _ _ _ _ _ (lit "  cd   /tmp  x"));
    [reflexivity | reflexivity | vm_compute; lia].
Defined.

Lemma exec_command_text_aux os m1 l1 m2 l2 fg w s :
  cstr m1 l1 = Ret s -> cstr m2 l2 = Ret s ->
  world_of (exec_command os m1 l1 fg w) = world_of (exec_command os m2 l2 fg w).
Proof.
  intros H1 H2. destruct (decide (length (words is_blank s) < MAX_ARGS)).
  - by rewrite !(exec_command_launch_aux _ _ _ _ _ s).
  - by rewrite !(exec_command_overflow _ _ _ _ _ s) by (done || lia).
Qed.

(** X7: what a job does depends on its text alone, not on where in which
    buffer the text lies nor on what else the buffer holds. *)
Theorem exec_command_text_only (os : OS) (m1 m2 : mem) (l1 l2 : nat) (fg : bool)
    (w : world) (s : list ascii) :
  cstr m1 l1 = Ret s -> cstr m2 l2 = Ret s ->
  world_of (exec_command os m1 l1 fg w) = world_of (exec_command os m2 l2 fg w).
Proof. apply exec_command_text_aux. Qed.

Lemma exec_command_text_only_witness :
  world_of (exec_command os_fine (lit "ls" ++ NUL :: lit "pwd" ++ [NUL]) 3 true w_start)
  = world_of (exec_command os_fine (lit "pwd" ++ [NUL]) 0 true w_start).
Proof.
  by apply (exec_command_text_only _ _ _ _ _ _ _ (lit "pwd")).
Defined.

(** ** A line, job by job *)

Lemma exec_command_own_buffer os m line fg w text :
  cstr m line = Ret text ->
  world_of (exec_command os m line fg w)
  = world_of (exec_command os (text ++ [NUL]) 0 fg w).
Proof.
  intros H. apply (exec_command_text_aux _ _ _ _ _ _ _ text); [done|].
  apply cstr_Ret in H as (r & _ & _ & Hn). by apply (cstr_app [] text []).
Qed.

Lemma for_each_job_run_jobs os m line w avail s :
  cstr m line = Ret s -> length s < avail ->
  world_of (for_each_job (exec_command os) avail m line w) = run_jobs os (jobs_of [] s) w.
Proof.
  intros Hs Hav. unfold run_jobs.
  apply (for_each_job_jobs (exec_command os) _) with (n := length s); [| |done..].
  - intros. by apply exec_command_own_buffer.
  - intros. by apply exec_command_tail.
Qed.

(** X8: the loop of [main] over a line does to the world what its jobs
    do, run in order, each as if it were alone in a buffer of its own. *)
Theorem line_runs_jobs (os : OS) (m : mem) (line : nat) (w : world) (avail : nat)
    (s : list ascii) :
  cstr m line = Ret s -> length s < avail ->
  world_of (for_each_job (exec_command os) avail m line w) = run_jobs os (jobs_of [] s) w.
Proof. apply for_each_job_run_jobs. Qed.

Lemma line_runs_jobs_witness :
  world_of (for_each_job (exec_command os_fine) 20 (lit "cd /tmp;ls&" ++ [NUL]) 0 w_start)
  = Ret (add_child 100 (set_cwd (lit "/tmp") w_start)).
Proof.
  rewrite (line_runs_jobs _ _ _ _ _ (lit "cd /tmp;ls&")); [reflexivity | reflexivity |].
  vm_compute. lia.
Defined.

Lemma run_line_world_of os line w :
  run_line os line w =
    line ← preprocess line;
    w ← world_of (for_each_job (exec_command os) (length line) line 0 w);
    Ret (foldl report w (sys_reap os w)).
Proof.
  unfold run_line. destruct (preprocess line) as [m| | |]; try done. simpl.
  by destruct (for_each_job (exec_command os) (length m) m 0 w) as [[m2 w2]| | |].
Qed.

(** X9: a line read is run as the jobs of its normalized text, in order,
    and then the sweep for ended children is made. *)
Theorem run_line_spec (os : OS) (m : mem) (w : world) (s : list ascii) :
  cstr m 0 = Ret s ->
  (Z.of_nat (length s) <= INT_MAX)%Z -> (Z.of_nat (length (normalize s)) <= INT_MAX)%Z ->
  length (normalize s) < length m ->
  run_line os m w =
    w' ← run_jobs os (jobs_of [] (normalize s)) w;
    Ret (foldl report w' (sys_reap os w')).
Proof.
  intros Hs Hlen Hlen' Hcap.
  destruct (preprocess_normalizes_aux m s Hs Hlen Hlen' Hcap) as (m' & Hp & Hs' & Hl).
  rewrite run_line_world_of, Hp, ret_bind.
  rewrite (for_each_job_run_jobs _ _ _ _ _ (normalize s)) by (done || lia). done.
Qed.

Lemma run_line_spec_witness :
  run_line os_fine (lit "cd /tmp ; ls &  " ++ [nl; NUL]) w_start
  = Ret (add_child 100 (set_cwd (lit "/tmp") w_start)).
Proof.
  rewrite (run_line_spec _ _ _ (lit "cd /tmp ; ls &  " ++ [nl]));
    [reflexivity | reflexivity | by vm_compute | by vm_compute | vm_compute; lia].
Defined.

Lemma space_plain c : space c -> plain c.
Proof.
  unfold space, plain. intros Hc. destruct (is_terminator c) eqn:Ht; [|done].
  apply terminator_not_space in Ht. congruence.
Qed.

(** X10: a blank line -- empty, or white space only -- is left as it is
    and runs no job: only the sweep is made. *)
Theorem blank_line_runs_nothing (os : OS) (m : mem) (w : world) (s : list ascii) :
  cstr m 0 = Ret s -> Forall space s -> (Z.of_nat (length s) <= INT_MAX)%Z ->
  preprocess m = Ret m /\
  split_jobs m = Ret [] /\
  run_line os m w = Ret (foldl report w (sys_reap os w)).
Proof.
  intros Hs Hbl Hlen. pose proof Hs as (rest & -> & Hn)%cstr_Ret0.
  assert (Forall plain s) as Hp by (eapply Forall_impl; [exact Hbl | apply space_plain]).
  split_and!.
  - by apply preprocess_blank_buffer.
  - by rewrite (split_jobs_spec_aux _ s), jobs_of_plain.
  - rewrite run_line_world_of, preprocess_blank_buffer, ret_bind by done.
    rewrite (for_each_job_run_jobs _ _ _ _ _ s), jobs_of_plain; [done|done|done|].
    autorewrite with len. simpl. lia.
Qed.

Lemma blank_line_runs_nothing_witness :
  run_line os_fine (lit "   " ++ [nl; NUL]) w_start = Ret w_start.
Proof.
  destruct (blank_line_runs_nothing os_fine (lit "   " ++ [nl; NUL]) w_start
              (lit "   " ++ [nl])) as (_ & _ & H);
    [reflexivity | by repeat constructor | by vm_compute |].
  by rewrite H.
Defined.

(** ** Launching a program *)

Lemma world_of_Halt (r : result (mem * world)) s code w :
  world_of r = Halt s code w -> r = Halt s code w.
Proof. destruct r as [[]| | |]; simpl; congruence. Qed.

Lemma world_of_Exec (r : result (mem * world)) argv w :
  world_of r = Exec argv w -> r = Exec argv w.
Proof. destruct r as [[]| | |]; simpl; congruence. Qed.

Lemma launch_program os name args fg w :
  name <> lit "exit" -> name <> lit "cd" ->
  launch os (name :: args) fg w =
    let child_id := sys_fork os w in
    if decide (child_id = (-1)%Z) then
      Halt AtForkFailed EXIT_FAILURE (perror (lit "fork failed") w)
    else if decide (child_id = 0%Z) then
      if sys_execvp os w (name :: args) then Exec (name :: args) w
      else Halt AtExecFailed 1
             (perror (lit "execvp failed, invalid command." ++ [nl]) w)
    else
      let w := add_child child_id w in
      if fg then
        match sys_waitpid os w child_id with
        | WExited c =>
            Ret (printf (lit "[" ++ name ++ lit " exited with status "
                         ++ fmt_d c ++ lit "]" ++ [nl]) w)
        | WSignaled sg =>
            Ret (printf (lit "[" ++ name ++ lit " died with status "
                         ++ fmt_d sg ++ lit "]" ++ [nl]) w)
        | WOther => Ret (printf (lit "Something unexpected happened." ++ [nl]) w)
        end
      else Ret w.
Proof.
  intros H1 H2. unfold launch. by rewrite !bool_decide_eq_false_2 by done.
Qed.

(** X11: in the parent, a job that is no builtin becomes one child.  A
    foreground job is waited for and reported in one line -- exit status,
    or signal -- and a background job is neither waited for nor reported. *)
Theorem parent_waits_for_foreground (os : OS) (m : mem) (line : nat) (w : world)
    (s name : list ascii) (args : list (list ascii)) :
  cstr m line = Ret s -> words is_blank s = name :: args ->
  length (words is_blank s) < MAX_ARGS ->
  name <> lit "exit" -> name <> lit "cd" ->
  sys_fork os w <> (-1)%Z -> sys_fork os w <> 0%Z ->
  let w1 := add_child (sys_fork os w) w in
  world_of (exec_command os m line false w) = Ret w1 /\
  world_of (exec_command os m line true w)
  = Ret (printf
           match sys_waitpid os w1 (sys_fork os w) with
           | WExited c =>
               lit "[" ++ name ++ lit " exited with status " ++ fmt_d c ++ lit "]" ++ [nl]
           | WSignaled sg =>
               lit "[" ++ name ++ lit " died with status " ++ fmt_d sg ++ lit "]" ++ [nl]
           | WOther => lit "Something unexpected happened." ++ [nl]
           end w1).
Proof.
  intros Hs Hw Hlt H1 H2 Hf1 Hf0 w1.
  rewrite !(exec_command_launch_aux _ _ _ _ _ s), Hw by done.
  rewrite !launch_program by done. cbv zeta.
  rewrite !(decide_False (P := sys_fork os w = (-1)%Z)) by done.
  rewrite !(decide_False (P := sys_fork os w = 0%Z)) by done.
  split; [done|]. fold w1. by destruct (sys_waitpid os w1 (sys_fork os w)).
Qed.

Lemma parent_waits_for_foreground_witness :
  world_of (exec_command os_fine (lit "sleep 5" ++ [NUL]) 0 false w_start)
    = Ret (add_child 100 w_start) /\
  world_of (exec_command os_fine (lit "sleep 5" ++ [NUL]) 0 true w_start)
    = Ret (printf (lit "[sleep exited with status 0]" ++ [nl]) (add_child 100 w_start)).
Proof.
  apply (parent_waits_for_foreground os_fine (lit "sleep 5" ++ [NUL]) 0 w_start
           (lit "sleep 5") (lit "sleep") [lit "5"]);
    try reflexivity; try discriminate. vm_compute. lia.
Defined.

(** X12: when [fork] fails the shell ends at once with status 1, whatever
    the flag of the job, with [fork failed] on stderr and nothing on stdout. *)
Theorem fork_failure_is_fatal (os : OS) (m : mem) (line : nat) (fg : bool) (w : world)
    (s name : list ascii) (args : list (list ascii)) :
  cstr m line = Ret s -> words is_blank s = name :: args ->
  length (words is_blank s) < MAX_ARGS ->
  name <> lit "exit" -> name <> lit "cd" ->
  sys_fork os w = (-1)%Z ->
  exec_command os m line fg w = Halt AtForkFailed 1 (perror (lit "fork failed") w).
Proof.
  intros Hs Hw Hlt H1 H2 Hf. apply world_of_Halt.
  rewrite (exec_command_launch_aux _ _ _ _ _ s), Hw by done.
  rewrite launch_program by done. cbv zeta. by rewrite decide_True.
Qed.

Lemma fork_failure_is_fatal_witness :
  exec_command os_no_fork (lit "ls -l" ++ [NUL]) 0 false w_start
  = Halt AtForkFailed 1 (perror (lit "fork failed") w_start).
Proof.
  apply (fork_failure_is_fatal os_no_fork _ 0 false w_start (lit "ls -l") (lit "ls") [lit "-l"]);
    try reflexivity; try discriminate. vm_compute. lia.
Defined.

(** X13: in the child, [execvp] is given exactly the words of the job
    text, the first as the program; when it fails the child ends with
    status 1. *)
Theorem child_execs_words (os : OS) (m : mem) (line : nat) (fg : bool) (w : world)
    (s name : list ascii) (args : list (list ascii)) :
  cstr m line = Ret s -> words is_blank s = name :: args ->
  length (words is_blank s) < MAX_ARGS ->
  name <> lit "exit" -> name <> lit "cd" ->
  sys_fork os w = 0%Z ->
  exec_command os m line fg w =
    if sys_execvp os w (name :: args) then Exec (name :: args) w
    else Halt AtExecFailed 1 (perror (lit "execvp failed, invalid command." ++ [nl]) w).
Proof.
  intros Hs Hw Hlt H1 H2 Hf.
  assert (world_of (exec_command os m line fg w) =
          if sys_execvp os w (name :: args) then Exec (name :: args) w
          else Halt AtExecFailed 1
                 (perror (lit "execvp failed, invalid command." ++ [nl]) w)) as H.
  { rewrite (exec_command_launch_aux _ _ _ _ _ s), Hw by done.
    rewrite launch_program by done. cbv zeta.
    rewrite decide_False by (rewrite Hf; done). by rewrite decide_True. }
  destruct (sys_execvp os w (name :: args)).
  - by apply world_of_Exec.
  - by apply world_of_Halt.
Qed.

Lemma child_execs_words_witness :
  exec_command os_child (lit " ls   -l " ++ [NUL]) 0 true w_start
  = Exec [lit "ls"; lit "-l"] w_start.
Proof.
  rewrite (child_execs_words os_child _ 0 true w_start (lit " ls   -l ") (lit "ls") [lit "-l"]);
    try reflexivity; try discriminate. vm_compute. lia.
Defined.

(** ** What exec_command writes *)

Lemma returns_self {A} (r : result A) : returns (fun a => r = Ret a) r.
Proof. by destruct r. Qed.

Lemma blanked_refl m : blanked m m.
Proof. apply Forall2_same_length_lookup_2; [done|]. intros i x y Hx Hy. left. congruence. Qed.

Lemma blanked_trans m1 m2 m3 : blanked m1 m2 -> blanked m2 m3 -> blanked m1 m3.
Proof.
  intros [Hl1 H1]%Forall2_same_length_lookup [Hl2 H2]%Forall2_same_length_lookup.
  apply Forall2_same_length_lookup_2; [congruence|]. intros i x z Hx Hz.
  assert (is_Some (m2 !! i)) as [y Hy].
  { apply lookup_lt_is_Some_2. rewrite <-Hl1. by eapply lookup_lt_Some. }
  pose proof (H1 i x y Hx Hy) as P1. pose proof (H2 i y z Hy Hz) as P2.
  destruct P1 as [->|[-> ->]], P2 as [->|[? ->]]; auto; done.
Qed.

Lemma blanked_insert m e : m !! e = Some " " -> blanked m (<[e:=NUL]> m).
Proof.
  intros He. apply Forall2_same_length_lookup_2; [by rewrite length_insert|].
  intros i x y Hx Hy. apply list_lookup_insert_Some in Hy as [(-> & -> & _) | (_ & Hy)].
  - right. split; congruence.
  - left. congruence.
Qed.

Lemma strtok_r_blanked m s :
  returns (fun r => blanked m r.1.1) (strtok_r m s (lit " ")).
Proof.
  unfold strtok_r. apply returns_bind_any; intros n. apply returns_bind_any; intros c.
  destruct (is_nul c); [apply blanked_refl|]. rewrite strcspn_blank.
  eapply returns_bind; [apply returns_self|]. intros k Hk.
  eapply returns_bind; [apply returns_self|]. intros c' Hc'%load_Ret.
  destruct (is_nul c') eqn:Hnul; [apply blanked_refl|].
  eapply returns_bind; [apply returns_self|]. intros m' [_ ->]%store_inv. simpl.
  apply blanked_insert. apply scan_Ret in Hk as [(c0 & Hc0 & Hstop) _].
  rewrite lookup_drop in Hc0. rewrite Hc' in Hc0. injection Hc0 as <-.
  rewrite Hnul in Hstop. simpl in Hstop. apply Ascii.eqb_eq in Hstop. by subst c'.
Qed.

Lemma tokenize_loop_blanked n :
  forall m line token tokens size,
    returns (fun r => blanked m r.1.1) (tokenize_loop n m line token tokens size).
Proof.
  induction n as [|n IH]; intros m line token tokens size;
    [destruct token; apply blanked_refl|].
  destruct token as [t|]; [|apply blanked_refl]. rewrite tokenize_loop_S.
  apply returns_bind_any; intros tokens'.
  eapply returns_bind; [apply strtok_r_blanked|].
  intros [[m' line'] token'] Hm'. cbn [fst snd] in Hm'.
  specialize (IH m' line' token' tokens' (size + 1)).
  destruct (tokenize_loop n m' line' token' tokens' (size + 1)) as [r| | |]; try done.
  simpl in *. by eapply blanked_trans.
Qed.

Lemma exec_command_blanked os m line fg w :
  returns (fun r => blanked m r.1) (exec_command os m line fg w).
Proof.
  unfold exec_command, tokenize.
  assert (returns (fun r => blanked m r.1.1)
            ('(m, line, token) ← strtok_r m line (lit " ");
             tokenize_loop MAX_ARGS m line token (replicate MAX_ARGS Garbage) 0)) as H.
  { eapply returns_bind; [apply strtok_r_blanked|].
    intros [[m' line'] token'] Hm'. cbn [fst snd] in Hm'.
    pose proof (tokenize_loop_blanked MAX_ARGS m' line' token' (replicate MAX_ARGS Garbage) 0)
      as H.
    destruct (tokenize_loop MAX_ARGS m' line' token' (replicate MAX_ARGS Garbage) 0)
      as [r| | |]; try done.
    cbn [returns] in *. by eapply blanked_trans. }
  eapply returns_bind; [exact H|]. intros [[m2 tokens] size] H2. cbn [fst snd] in H2.
  apply returns_bind_any; intros tokens'.
  pose proof (dispatch_buffer os m2 tokens' size fg w) as H3.
  destruct (dispatch os m2 tokens' size fg w) as [[m3 w3]| | |]; try done.
  cbn [returns fst snd] in *. by subst m3.
Qed.

(** X14: the buffer [exec_command] returns is the one it was given with
    some blanks overwritten by NUL: it is as long, and no other character
    is changed. *)
Theorem exec_command_blanks_only (os : OS) (m : mem) (line : nat) (fg : bool) (w : world)
    (m' : mem) (w' : world) :
  exec_command os m line fg w = Ret (m', w') ->
  blanked m m' /\ length m' = length m /\
  (forall i c, m !! i = Some c -> c <> " " -> m' !! i = Some c).
Proof.
  intros H. pose proof (exec_command_blanked os m line fg w) as Hb. rewrite H in Hb.
  simpl in Hb. split_and!; [done|symmetry; by eapply Forall2_length|].
  intros i c Hc Hne. apply Forall2_same_length_lookup in Hb as [Hl Hb].
  assert (is_Some (m' !! i)) as [c' Hc'].
  { apply lookup_lt_is_Some_2. rewrite <-Hl. by eapply lookup_lt_Some. }
  by destruct (Hb i c c' Hc Hc') as [->|[-> _]].
Qed.

Lemma exec_command_blanks_only_witness :
  blanked (lit "cd  /tmp x" ++ [NUL]) (lit "cd" ++ [NUL] ++ lit " /tmp" ++ [NUL] ++ lit "x" ++ [NUL])
  /\ exec_command os_fine (lit "cd  /tmp x" ++ [NUL]) 0 true w_start
     = Ret (lit "cd" ++ [NUL] ++ lit " /tmp" ++ [NUL] ++ lit "x" ++ [NUL],
            set_cwd (lit "/tmp") w_start).
Proof.
  split; [|reflexivity].
  by destruct (exec_command_blanks_only os_fine (lit "cd  /tmp x" ++ [NUL]) 0 true w_start
                 _ _ eq_refl) as [H _].
Defined.

Lemma strtok_r_head m s :
  returns (fun r => take s r.1.1 = take s m /\ s <= r.1.2) (strtok_r m s (lit " ")).
Proof.
  unfold strtok_r. apply returns_bind_any; intros n. apply returns_bind_any; intros c.
  destruct (is_nul c); [simpl; split; [done|lia]|].
  apply returns_bind_any; intros k. apply returns_bind_any; intros c'.
  destruct (is_nul c'); [simpl; split; [done|lia]|].
  eapply returns_bind; [apply returns_self|]. intros m' [_ ->]%store_inv. simpl.
  split; [|lia]. apply take_insert_ge. lia.
Qed.

Lemma tokenize_loop_head n :
  forall m line token tokens size,
    returns (fun r => take line r.1.1 = take line m)
            (tokenize_loop n m line token tokens size).
Proof.
  induction n as [|n IH]; intros m line token tokens size; [by destruct token|].
  destruct token as [t|]; [|done]. rewrite tokenize_loop_S.
  apply returns_bind_any; intros tokens'.
  eapply returns_bind; [apply strtok_r_head|].
  intros [[m' line'] token'] [Hm' Hle]. cbn [fst snd] in Hm', Hle.
  specialize (IH m' line' token' tokens' (size + 1)).
  destruct (tokenize_loop n m' line' token' tokens' (size + 1)) as [r| | |]; try done.
  cbn [returns] in *.
  rewrite <-Hm', <-(Nat.min_l line line') by done.
  by rewrite <-!take_take, IH.
Qed.

Lemma exec_command_head os m line fg w :
  returns (fun r => take line r.1 = take line m) (exec_command os m line fg w).
Proof.
  unfold exec_command, tokenize.
  assert (returns (fun r => take line r.1.1 = take line m)
            ('(m, line, token) ← strtok_r m line (lit " ");
             tokenize_loop MAX_ARGS m line token (replicate MAX_ARGS Garbage) 0)) as H.
  { eapply returns_bind; [apply strtok_r_head|].
    intros [[m' line'] token'] [Hm' Hle]. cbn [fst snd] in Hm', Hle.
    pose proof (tokenize_loop_head MAX_ARGS m' line' token' (replicate MAX_ARGS Garbage) 0)
      as H.
    destruct (tokenize_loop MAX_ARGS m' line' token' (replicate MAX_ARGS Garbage) 0)
      as [r| | |]; try done.
    cbn [returns] in *.
    rewrite <-Hm', <-(Nat.min_l line line') by done.
    by rewrite <-!take_take, H. }
  eapply returns_bind; [exact H|]. intros [[m2 tokens] size] H2. cbn [fst snd] in H2.
  apply returns_bind_any; intros tokens'.
  pose proof (dispatch_buffer os m2 tokens' size fg w) as H3.
  destruct (dispatch os m2 tokens' size fg w) as [[m3 w3]| | |]; try done.
  cbn [returns fst snd] in *. by subst m3.
Qed.

(** X15: [exec_command] writes inside the text of its job only: the
    bytes in front of [line] and those from the NUL of the job on are what
    they were. *)
Theorem exec_command_in_job (os : OS) (m : mem) (line : nat) (fg : bool) (w : world)
    (s : list ascii) (m' : mem) (w' : world) :
  cstr m line = Ret s -> exec_command os m line fg w = Ret (m', w') ->
  forall i, i < line \/ line + length s <= i -> m' !! i = m !! i.
Proof.
  intros Hs H i Hi.
  pose proof (exec_command_head os m line fg w) as Hh.
  pose proof (exec_command_tail os m line fg w s Hs) as Ht.
  rewrite H in Hh, Ht. simpl in Hh, Ht. destruct Hi as [Hi|Hi].
  - by rewrite <-(lookup_take_lt m' line i), Hh, lookup_take_lt by done.
  - replace i with (line + length s + (i - (line + length s))) by lia.
    by rewrite <-!lookup_drop, Ht.
Qed.

Lemma exec_command_in_job_witness :
  exists m',
    exec_command os_fine (lit "ls;" ++ lit "a b c" ++ NUL :: lit "pwd;" ++ [NUL]) 3 false w_start
    = Ret (m', add_child 100 w_start) /\
    m' !! 1 = Some "s" /\ m' !! 9 = Some "p".
Proof.
  eexists. split; [reflexivity|].
  pose proof (exec_command_in_job os_fine
                (lit "ls;" ++ lit "a b c" ++ NUL :: lit "pwd;" ++ [NUL]) 3 false w_start
                (lit "a b c") _ _ eq_refl eq_refl) as H.
  split; [rewrite (H 1) by (left; lia) | rewrite (H 9) by (right; simpl; lia)]; reflexivity.
Defined.

(** ** The sweep *)

Lemma report_writes w r :
  report w r = World (cwd w) (out w ++ [report_text r]) (err w) (children w).
Proof. by destruct r as [pid []]. Qed.

(** X16: the sweep writes to stdout, in the order the children were
    reaped, one line for each: the pid and the exit status, or the pid and
    the number of the signal in the same words, or the notice that
    something unexpected happened; it changes nothing else. *)
Theorem sweep_reports (w : world) (l : list (Z * wstatus)) :
  foldl report w l
  = World (cwd w) (out w ++ map report_text l) (err w) (children w).
Proof.
  revert w. induction l as [|r l IH]; intros w.
  - simpl. rewrite app_nil_r. by destruct w.
  - cbn [foldl map]. rewrite IH, report_writes. simpl. by rewrite <-app_assoc.
Qed.

(** ** How a run can end *)

Section Ends.
Context (PH : Z -> Prop) (PF : fault -> Prop).
Hypothesis PH0 : PH 0%Z.
Hypothesis PH1 : PH 1%Z.
Hypothesis PH2 : PH 2%Z.
Hypothesis PF_bounds : PF OutOfBounds.
Hypothesis PF_null : PF NullDeref.
Hypothesis PF_int : PF IntOverflow.

Abbreviation ends := (ends_within PH PF).

Lemma ends_bind {A B} (r : result A) (f : A -> result B) :
  ends r -> (forall a, ends (f a)) -> ends (r ≫= f).
Proof. destruct r; simpl; auto. Qed.

Lemma ends_bind_returns {A B} (P : A -> Prop) (r : result A) (f : A -> result B) :
  ends r -> returns P r -> (forall a, P a -> ends (f a)) -> ends (r ≫= f).
Proof. destruct r; simpl; auto. Qed.

Lemma ends_Ret {A} (a : A) : ends (Ret a).
Proof. done. Qed.
Lemma ends_Exec {A} argv w : ends (@Exec A argv w).
Proof. done. Qed.
Lemma ends_Halt0 {A} s w : ends (@Halt A s 0 w).
Proof. done. Qed.
Lemma ends_Halt1 {A} s w : ends (@Halt A s 1 w).
Proof. done. Qed.
Lemma ends_Halt2 {A} s w : ends (@Halt A s 2 w).
Proof. done. Qed.
Lemma ends_Halt_failure {A} s w : ends (@Halt A s EXIT_FAILURE w).
Proof. done. Qed.
Lemma ends_bounds {A} : ends (@Fault A OutOfBounds).
Proof. done. Qed.
Lemma ends_null {A} : ends (@Fault A NullDeref).
Proof. done. Qed.
Lemma ends_int {A} : ends (@Fault A IntOverflow).
Proof. done. Qed.

Create HintDb ends.
#[local] Hint Resolve ends_Ret ends_Exec ends_Halt0 ends_Halt1 ends_Halt2 ends_Halt_failure
  ends_bounds ends_null ends_int : ends.

Ltac ends_tac :=
  repeat first
    [ solve [auto with ends]
    | apply ends_bind; [solve [auto with ends]|intros ?]
    | case_decide
    | case_match ].

Lemma load_ends {A} (a : list A) i : ends (load a i).
Proof. unfold load. ends_tac. Qed.
Lemma store_ends {A} (a : list A) i x : ends (store a i x).
Proof. unfold store. ends_tac. Qed.
Lemma scan_ends stop s : ends (scan stop s).
Proof. destruct (scan_cases stop s) as [[n ->] | ->]; auto with ends. Qed.
#[local] Hint Resolve load_ends store_ends scan_ends : ends.

Lemma strlen_ends m s : ends (strlen m s).
Proof. unfold strlen. ends_tac. Qed.
Lemma strspn_ends m s a : ends (strspn m s a).
Proof. unfold strspn. ends_tac. Qed.
Lemma strcspn_ends m s a : ends (strcspn m s a).
Proof. unfold strcspn. ends_tac. Qed.
#[local] Hint Resolve strlen_ends strspn_ends strcspn_ends : ends.

Lemma strpbrk_ends m s a : ends (strpbrk m s a).
Proof. unfold strpbrk. ends_tac. Qed.
Lemma cstr_ends m s : ends (cstr m s).
Proof. unfold cstr. ends_tac. Qed.
Lemma strtok_r_ends m s d : ends (strtok_r m s d).
Proof. unfold strtok_r. ends_tac. Qed.
Lemma to_int_ends n : ends (to_int n).
Proof. unfold to_int. ends_tac. Qed.
#[local] Hint Resolve strpbrk_ends cstr_ends strtok_r_ends to_int_ends : ends.

Lemma preprocess_loop_ends str n : ends (preprocess_loop str n).
Proof. induction n as [|n IH]; simpl; ends_tac. Qed.
#[local] Hint Resolve preprocess_loop_ends : ends.

Lemma preprocess_ends str : ends (preprocess str).
Proof. unfold preprocess. ends_tac. Qed.

Lemma tokenize_loop_ends n :
  forall m line token tokens size, ends (tokenize_loop n m line token tokens size).
Proof.
  induction n as [|n IH]; intros m line token tokens size; [by destruct token|].
  destruct token as [t|]; [|done]. rewrite tokenize_loop_S. ends_tac.
Qed.
#[local] Hint Resolve preprocess_ends tokenize_loop_ends : ends.

Lemma tokenize_ends m line : ends (tokenize m line).
Proof. unfold tokenize. ends_tac. Qed.

(** A slot that holds a token or the sentinel is read without a fault of
    its own. *)
Lemma string_at_ends m c : c <> Garbage -> ends (string_at m c).
Proof. destruct c; [done| |]; intros _; simpl; auto with ends. Qed.

Lemma streq_ends m c s : c <> Garbage -> ends (streq m c s).
Proof. intros Hc. unfold streq. apply ends_bind; [by apply string_at_ends | auto with ends]. Qed.

Lemma argv_of_ends m size :
  forall tokens, assigned tokens size -> tokens !! size = Some Null ->
                 ends (argv_of m tokens).
Proof.
  induction size as [|size IH]; intros tokens Ha Hnull.
  - destruct tokens as [|c tokens]; [done|]. simpl in Hnull. by injection Hnull as ->.
  - destruct tokens as [|c tokens]; [done|].
    destruct (Ha 0) as [p Hp]; [lia|]. simpl in Hp. injection Hp as ->. simpl.
    apply ends_bind; [auto with ends|]. intros a.
    apply ends_bind; [|auto with ends]. apply IH; [|done].
    intros i Hi. apply (Ha (S i)). lia.
Qed.

Lemma dispatch_ends os m tokens size fg w :
  assigned tokens size -> tokens !! size = Some Null ->
  ends (dispatch os m tokens size fg w).
Proof.
  intros Ha Hnull. unfold dispatch.
  assert (exists c0, tokens !! 0 = Some c0 /\ c0 <> Garbage) as (c0 & H0 & Hc0).
  { destruct size as [|size]; [by exists Null|].
    destruct (Ha 0) as [p Hp]; [lia|]. by exists (Addr p). }
  rewrite (load_lookup _ _ _ H0), ret_bind.
  apply ends_bind; [by apply streq_ends|]. intros [|]; [auto with ends|].
  apply ends_bind; [by apply streq_ends|]. intros [|].
  - case_decide as Hsz; [|auto with ends].
    destruct (Ha 1 Hsz) as [p1 H1]. rewrite (load_lookup _ _ _ H1), ret_bind.
    apply ends_bind; [by apply string_at_ends|]. intros dir. ends_tac.
  - cbv zeta. pose proof (argv_of_ends m size tokens Ha Hnull).
    pose proof (string_at_ends m c0 Hc0). ends_tac.
Qed.

Lemma tokenize_loop_assigned n :
  forall m line token tokens size,
    assigned tokens size ->
    returns (fun r => assigned r.1.2 r.2 /\ length r.1.2 = length tokens)
            (tokenize_loop n m line token tokens size).
Proof.
  induction n as [|n IH]; intros m line token tokens size Ha; [by destruct token|].
  destruct token as [t|]; [|done]. rewrite tokenize_loop_S.
  eapply returns_bind; [apply returns_self|]. intros tokens' [Hlt ->]%store_inv.
  apply returns_bind_any. intros [[m' line'] token'].
  specialize (IH m' line' token' (<[size:=Addr t]> tokens) (size + 1)).
  destruct (tokenize_loop n m' line' token' (<[size:=Addr t]> tokens) (size + 1))
    as [r| | |]; try done.
  cbn [returns] in *. rewrite length_insert in IH. apply IH.
  intros i Hi. destruct (decide (i = size)) as [->|].
  - exists t. by apply list_lookup_insert_eq.
  - rewrite list_lookup_insert_ne by done. apply Ha. lia.
Qed.

Lemma exec_command_ends os m line fg w : ends (exec_command os m line fg w).
Proof.
  unfold exec_command.
  assert (returns (fun r => assigned r.1.2 r.2) (tokenize m line)) as Hassigned.
  { unfold tokenize. apply returns_bind_any. intros [[m' line'] token'].
    pose proof (tokenize_loop_assigned MAX_ARGS m' line' token'
                  (replicate MAX_ARGS Garbage) 0) as H.
    destruct (tokenize_loop MAX_ARGS m' line' token' (replicate MAX_ARGS Garbage) 0)
      as [r| | |]; try done.
    cbn [returns] in *. apply H. intros i Hi. lia. }
  eapply ends_bind_returns; [apply tokenize_ends | exact Hassigned |].
  intros [[m' tokens] size] Ha. cbn [fst snd] in Ha.
  eapply ends_bind_returns; [auto with ends | apply returns_self |].
  intros tokens' [Hlt ->]%store_inv. apply dispatch_ends.
  - intros i Hi. rewrite list_lookup_insert_ne by lia. by apply Ha.
  - by apply list_lookup_insert_eq.
Qed.

Lemma for_each_job_ends os :
  forall avail m line w, ends (for_each_job (exec_command os) avail m line w).
Proof.
  intros avail. induction avail as [|avail IH]; intros m line w; [done|].
  rewrite for_each_job_S. pose proof (exec_command_ends os). ends_tac.
Qed.

Lemma run_line_ends os line w : ends (run_line os line w).
Proof.
  unfold run_line. apply ends_bind; [auto with ends | intros m].
  apply ends_bind; [apply for_each_job_ends | by intros []].
Qed.

Lemma read_loop_ends os input e : forall w, ends (read_loop os input e w).
Proof.
  induction input as [|line input IH]; intros w; simpl.
  - ends_tac.
  - apply ends_bind; [apply run_line_ends | auto].
Qed.

Lemma main_ends os argv input e w : ends (main os argv input e w).
Proof. unfold main. pose proof (read_loop_ends os input e w). ends_tac. Qed.
End Ends.

(** X17: the shell never reads a slot of [tokens] that has not been
    assigned: neither one job, on whatever buffer, nor a whole run ends in
    that fault. *)
Theorem no_unassigned_slot_read (os : OS) :
  (forall m line fg w, exec_command os m line fg w <> Fault Uninit) /\
  (forall argv input e w, main os argv input e w <> Fault Uninit).
Proof.
  split.
  - intros m line fg w H.
    assert (ends_within (fun _ => True) (fun f => f <> Uninit)
              (exec_command os m line fg w)) as E by (by apply exec_command_ends).
    rewrite H in E. by apply E.
  - intros argv input e w H.
    assert (ends_within (fun _ => True) (fun f => f <> Uninit)
              (main os argv input e w)) as E by (by apply main_ends).
    rewrite H in E. by apply E.
Qed.

(** X18: whenever a run of the shell ends with a status -- in the shell or
    in a child whose [execvp] failed -- the status is 0, 1 or 2. *)
Theorem exit_status_range (os : OS) (argv : list (list ascii)) (input : list mem) (e : Z)
    (w w' : world) (s : site) (code : Z) :
  main os argv input e w = Halt s code w' ->
  code = 0%Z \/ code = 1%Z \/ code = 2%Z.
Proof.
  intros H.
  assert (ends_within (fun c => c = 0%Z \/ c = 1%Z \/ c = 2%Z) (fun _ => True)
            (main os argv input e w)) as E by (apply main_ends; auto).
  by rewrite H in E.
Qed.

Lemma exit_status_range_witness : 1%Z = 0%Z \/ 1%Z = 1%Z \/ 1%Z = 2%Z.
Proof.
  apply (exit_status_range os_no_fork [lit "mysh"] [lit "ls" ++ [nl; NUL]] 0 w_start
           (perror (lit "fork failed") (printf (lit "$ ") w_start)) AtForkFailed 1).
  reflexivity.
Defined.

(** X19: [exit] ends the shell with status 0 whatever its arguments and its
    flag are, and what follows it on the line is never run. *)
Theorem exit_cuts_the_line (os : OS) (m : mem) (line : nat) (w : world) (avail : nat)
    (text : list ascii) (t : ascii) (r : list ascii) (args : list (list ascii)) :
  cstr m line = Ret (text ++ t :: r) -> Forall plain text -> is_terminator t = true ->
  words is_blank text = lit "exit" :: args -> length (words is_blank text) < MAX_ARGS ->
  length (text ++ t :: r) < avail ->
  for_each_job (exec_command os) avail m line w = Halt AtExitBuiltin 0 w.
Proof.
  intros Hs Htext Ht Hw Hlt Hav.
  assert (world_of (for_each_job (exec_command os) avail m line w) = Halt AtExitBuiltin 0 w)
    as H; [|by destruct (for_each_job (exec_command os) avail m line w) as [[]| | |];
             simpl in H; congruence].
  rewrite (for_each_job_run_jobs _ _ _ _ _ _ Hs Hav), jobs_of_app by done.
  unfold run_jobs. simpl.
  apply cstr_Ret in Hs as (r0 & _ & _ & Hn). apply Forall_app in Hn as [Hn _].
  rewrite (exec_command_launch_aux _ _ _ _ _ text), Hw; [done| |done].
  by apply (cstr_app [] text []).
Qed.

Lemma exit_cuts_the_line_witness :
  for_each_job (exec_command os_fine) 20 (lit "exit 3&ls;" ++ [NUL]) 0 w_start
  = Halt AtExitBuiltin 0 w_start.
Proof.
  apply (exit_cuts_the_line os_fine _ 0 w_start 20 (lit "exit 3") "&" (lit "ls;") [lit "3"]);
    try reflexivity; [by repeat constructor | vm_compute; lia | vm_compute; lia].
Defined.
